(** * QueTrucazo: the Game aggregate (server, games/core/domain/Game.ts)

    A shallow embedding of the [Game] class and of the transitions it
    offers (join, start, throwCard, envido, answerEnvido, goToDeck), with
    the properties of the specification stated over it.

    Conventions of the embedding.
    - A JavaScript [Record<id, V>] is a finite map [gmap UserId V]; the
      object literal [{[a]: x, [b]: y}] is [<[b:=y]> (<[a:=x]> ∅)], so
      that a later key overwrites an earlier equal one.
    - A [number] that the code computes with is a [num]: an integer or
      [NaN] (what arithmetic on [undefined] produces).  The sums of the
      model are those of the integers; the sums of the code are those of
      doubles, which agree with them on the safe integers (see
      [safeInteger]) and round beyond.  Match points stay far below
      2^53; [safeScores] names a range of games on which every sum
      that a transition computes is exact.
    - A thrown [Error] is an [Err] result carrying the message; reading a
      property of [undefined] is [Err TypeError].
    - [generatePlayersCards()] is the only source of randomness: every
      transition that may deal takes the outcome of the deal as an
      argument.
    - The module Cards.ts is not part of the sources at hand: the type
      [Card] and the functions [getCardValue], [getEnvidoCardsValue] and
      [getRoundWinner] are parameters of the development.  Equality on
      [Card] stands for JavaScript's [===] on card values. *)

From Stdlib Require Import ZArith List String.
From stdpp Require Import base option list gmap.

Local Open Scope Z_scope.

(** ** Numbers, errors *)

Inductive num : Type :=
| Num (z : Z)
| NaN.

#[global] Instance num_eq_dec : EqDecision num.
Proof. solve_decision. Defined.

(** [undefined] used as an operand converts to [NaN]. *)
Definition toNumber (o : option num) : num :=
  match o with
  | Some n => n
  | None => NaN
  end.

Definition num_add (a b : num) : num :=
  match a, b with
  | Num x, Num y => Num (x + y)
  | _, _ => NaN
  end.

Definition num_sub (a b : num) : num :=
  match a, b with
  | Num x, Num y => Num (x - y)
  | _, _ => NaN
  end.

(** [a >= b] and [a < b]: any comparison with [NaN] is false. *)
Definition num_geb (a b : num) : bool :=
  match a, b with
  | Num x, Num y => bool_decide (y ≤ x)
  | _, _ => false
  end.

Definition num_ltb (a b : num) : bool :=
  match a, b with
  | Num x, Num y => bool_decide (x < y)
  | _, _ => false
  end.

(** JavaScript numbers are doubles.  Every integer of absolute value at
    most [MAX_SAFE_INTEGER] is a double, and the sum or the difference
    of two of them, when it is one of them again, is computed exactly:
    there [num_add] and [num_sub] are the [+] and [-] of the code.
    Beyond, the code rounds (2^53 + 1 is 2^53) where the model does
    not. *)
Definition MAX_SAFE_INTEGER : Z := 2 ^ 53 - 1.

Definition safeInteger (z : Z) : Prop :=
  - MAX_SAFE_INTEGER ≤ z ≤ MAX_SAFE_INTEGER.

Inductive GameError : Type :=
| NotYourTurn          (* 'Not your turn' *)
| WaitingResponse      (* 'Waiting response' *)
| InvalidCard          (* 'Invalid card' *)
| InvalidStep          (* 'Invalid step' *)
| InvalidEnvidoCall    (* 'Invalid envido call' *)
| NotWaitingResponse   (* 'Not waiting response' *)
| TypeError.           (* property read on undefined *)

#[global] Instance GameError_eq_dec : EqDecision GameError.
Proof. solve_decision. Defined.

Inductive result (A : Type) : Type :=
| Ok (a : A)
| Err (e : GameError).
Arguments Ok {A} a.
Arguments Err {A} e.

#[global] Instance result_ret : MRet result := λ A a, Ok a.
#[global] Instance result_bind : MBind result := λ A B f m,
  match m with
  | Ok a => f a
  | Err e => Err e
  end.

Definition is_ok {A} (r : result A) : bool :=
  match r with
  | Ok _ => true
  | Err _ => false
  end.

(** [o] when defined, a [TypeError] otherwise: models [o.prop] on a value
    that may be [undefined]. *)
Definition defined {A} (o : option A) : result A :=
  match o with
  | Some a => Ok a
  | None => Err TypeError
  end.

(** ** Users and calls *)

Definition UserId : Type := Z.

(** [SafeUser]; the field [id] is called [user_id] here. *)
Record SafeUser : Type := {
  user_id : UserId;
  username : string;
}.

Definition MAX_POINTS : Z := 5.

Inductive EnvidoCall : Type :=
| ENVIDO
| REAL_ENVIDO
| FALTA_ENVIDO.

#[global] Instance EnvidoCall_eq_dec : EqDecision EnvidoCall.
Proof. solve_decision. Defined.

Inductive TrucoCall : Type :=
| TRUCO
| RETRUCO
| VALE_CUATRO.

#[global] Instance TrucoCall_eq_dec : EqDecision TrucoCall.
Proof. solve_decision. Defined.

(** [Truco]: declared by the source, used by no field of [GameState] and
    by no method of [Game]. *)
Record Truco : Type := {
  call : TrucoCall;
  caller : UserId;
}.

(** [Envido]; its field [winner] is called [envidoWinner] here. *)
Record Envido : Type := {
  calls : list EnvidoCall;
  firstCaller : option UserId;
  lastCaller : option UserId;
  acceptedBy : option UserId;
  accepted : option bool;
  waitingResponse : bool;
  envidoWinner : option UserId;
  playersPoints : option (gmap UserId num);
}.

Definition emptyEnvido : Envido := {|
  calls := [];
  firstCaller := None;
  lastCaller := None;
  acceptedBy := None;
  accepted := None;
  waitingResponse := false;
  envidoWinner := None;
  playersPoints := None;
|}.

Abbreviation UsersPoints := (gmap UserId num).

(** The escalation rules in the words of the specification: "from empty,
    any of the three is legal; from ENVIDO, a second ENVIDO (and only a
    second), or REAL_ENVIDO, or FALTA_ENVIDO; from REAL_ENVIDO, only
    FALTA_ENVIDO; from FALTA_ENVIDO, nothing". *)
Inductive legalEscalation : list EnvidoCall → EnvidoCall → Prop :=
| from_empty c : legalEscalation [] c
| second_envido : legalEscalation [ENVIDO] ENVIDO
| real_after_envido cs : legalEscalation (cs ++ [ENVIDO]) REAL_ENVIDO
| falta_after_envido cs : legalEscalation (cs ++ [ENVIDO]) FALTA_ENVIDO
| falta_after_real cs : legalEscalation (cs ++ [REAL_ENVIDO]) FALTA_ENVIDO.

(** The chains of the specification: ENVIDO at most twice in a row, then
    REAL_ENVIDO at most once, then FALTA_ENVIDO at most once. *)
Definition escalationChain (cs : list EnvidoCall) : Prop :=
  ∃ (n : nat) (r f : bool), (n ≤ 2)%nat
    ∧ cs = replicate n ENVIDO
           ++ (if r then [REAL_ENVIDO] else [])
           ++ (if f then [FALTA_ENVIDO] else []).

(** ** The game, over the card module *)

Section Game.

(** The type of cards; its decidable equality is [===] on cards. *)
Context {Card : Type} `{EqDecision Card}.

(** [getCardValue], applied to a card or to [undefined] ([None]: the
    last element of an empty array). *)
Variable getCardValue : option Card → Z.
Variable getEnvidoCardsValue : list Card → Z.
Variable getRoundWinner : list UserId → gmap UserId (list Card) → option UserId.

(** [playerTurn] is declared as an id; [answerEnvido] stores
    [envido.firstCaller!!] in it, which is [undefined] when no caller was
    recorded, hence the option. *)
Record GameState : Type := {
  started : bool;
  firstPlayer : UserId;
  playerTurn : option UserId;
  winner : option UserId;
  round : Z;
  cards : gmap UserId (list Card);
  thrownCards : gmap UserId (list Card);
  trucoPoints : Z;
  points : UsersPoints;
  envido : Envido;
}.

Inductive GameEvent : Type :=
| START
| ENVIDO_CALL (c : EnvidoCall) (who : UserId)
| ENVIDO_ACCEPTED (who : UserId) (pts : UsersPoints)
| ENVIDO_DECLINED (who : UserId) (pts : UsersPoints)
| TRUCO_CALL (c : TrucoCall) (who : UserId)
| TRUCO_ACCEPT (who : UserId) (c : TrucoCall)
| TRUCO_DECLINE (who : UserId) (c : TrucoCall)
| THROW_CARD (playerId : UserId) (card : Card) (nextPlayerId : option UserId)
| TO_DECK (playerId : UserId)
| ROUND_RESULT (w : UserId) (pts : UsersPoints)
| NEXT_ROUND (hands : gmap UserId (list Card)) (r : Z) (nextPlayerId : UserId)
| RESULT (w : UserId) (pts : UsersPoints).

(** [Game]; the field [id] is called [game_id] here. *)
Record Game : Type := {
  game_id : Z;
  name : string;
  players : list SafeUser;
  state : GameState;
  events : list GameEvent;
}.

(** [copy({state})], [copy({events})], [copy({events, state})],
    [copy({players})]. *)
Definition copy_state (s : GameState) (g : Game) : Game :=
  {| game_id := game_id g; name := name g; players := players g;
     state := s; events := events g |}.

Definition copy_events (es : list GameEvent) (g : Game) : Game :=
  {| game_id := game_id g; name := name g; players := players g;
     state := state g; events := es |}.

Definition copy_events_state (es : list GameEvent) (s : GameState) (g : Game) : Game :=
  {| game_id := game_id g; name := name g; players := players g;
     state := s; events := es |}.

Definition copy_players (ps : list SafeUser) (g : Game) : Game :=
  {| game_id := game_id g; name := name g; players := ps;
     state := state g; events := events g |}.

(** The spreads [{...this.state, field: v}] used by the methods. *)
Definition with_playerTurn (t : option UserId) (s : GameState) : GameState :=
  {| started := started s; firstPlayer := firstPlayer s; playerTurn := t;
     winner := winner s; round := round s; cards := cards s;
     thrownCards := thrownCards s; trucoPoints := trucoPoints s;
     points := points s; envido := envido s |}.

Definition with_winner (w : option UserId) (s : GameState) : GameState :=
  {| started := started s; firstPlayer := firstPlayer s;
     playerTurn := playerTurn s; winner := w; round := round s;
     cards := cards s; thrownCards := thrownCards s;
     trucoPoints := trucoPoints s; points := points s; envido := envido s |}.

Definition with_points (p : UsersPoints) (s : GameState) : GameState :=
  {| started := started s; firstPlayer := firstPlayer s;
     playerTurn := playerTurn s; winner := winner s; round := round s;
     cards := cards s; thrownCards := thrownCards s;
     trucoPoints := trucoPoints s; points := p; envido := envido s |}.

Definition with_cards_thrown (cs ts : gmap UserId (list Card)) (s : GameState) : GameState :=
  {| started := started s; firstPlayer := firstPlayer s;
     playerTurn := playerTurn s; winner := winner s; round := round s;
     cards := cs; thrownCards := ts; trucoPoints := trucoPoints s;
     points := points s; envido := envido s |}.

Definition NEW_GAME_ID : Z := 0.

Definition new (user : SafeUser) : Game := {|
  game_id := NEW_GAME_ID;
  name := username user;
  players := [user];
  events := [];
  state := {|
    started := false;
    firstPlayer := user_id user;
    playerTurn := Some (user_id user);
    winner := None;
    round := 1;
    cards := ∅;
    thrownCards := ∅;
    trucoPoints := 1;
    points := ∅;
    envido := emptyEnvido;
  |};
|}.

(** [this.players[i].id] *)
Definition playerId (g : Game) (i : nat) : result UserId :=
  p ← defined (players g !! i); mret (user_id p).

(** [this.players.find(player => player.id !== userId)!.id] *)
Definition otherPlayerId (g : Game) (userId : UserId) : result UserId :=
  p ← defined (find (λ p, bool_decide (user_id p ≠ userId)) (players g));
  mret (user_id p).

Definition canJoin (userId : UserId) (g : Game) : bool :=
  negb (started (state g))
  && bool_decide (length (players g) = 1%nat)
  && match players g !! 0%nat with
     | Some p => bool_decide (user_id p ≠ userId)
     | None => false
     end.

Definition hasUser (userId : UserId) (g : Game) : bool :=
  existsb (λ p, bool_decide (user_id p = userId)) (players g).

Definition join (user : SafeUser) (g : Game) : Game :=
  copy_players (players g ++ [user]) g.

Definition getPlayersIds (g : Game) : list UserId :=
  map user_id (players g).

Definition start (deal : list Card * list Card) (g : Game) : result Game :=
  p0 ← playerId g 0;
  p1 ← playerId g 1;
  let pts : UsersPoints := <[p1 := Num 0]> (<[p0 := Num 0]> ∅) in
  let hands := <[p1 := deal.2]> (<[p0 := deal.1]> ∅) in
  let es := events g ++ [START; NEXT_ROUND hands (round (state g)) (firstPlayer (state g))] in
  let s := state g in
  mret (copy_events_state es
    {| started := true; firstPlayer := firstPlayer s;
       playerTurn := playerTurn s; winner := winner s; round := round s;
       cards := hands; thrownCards := thrownCards s;
       trucoPoints := trucoPoints s; points := pts; envido := envido s |} g).

Definition isWaitingResponse (g : Game) : bool :=
  waitingResponse (envido (state g)).

(** [this.state.thrownCards[id] || []] *)
Definition thrownOf (g : Game) (u : UserId) : list Card :=
  default [] (thrownCards (state g) !! u).

Definition step (g : Game) : result nat :=
  p0 ← playerId g 0;
  p1 ← playerId g 1;
  let player1ThrownCards := thrownOf g p0 in
  let player2ThrownCards := thrownOf g p1 in
  let thrown :=
    if bool_decide (length player1ThrownCards < length player2ThrownCards)%nat
    then player1ThrownCards else player2ThrownCards in
  mret (length thrown + 1)%nat.

Definition setNextTurnPlayer (g : Game) : result Game :=
  p0 ← playerId g 0;
  p1 ← playerId g 1;
  let player1ThrownCards := thrownOf g p0 in
  let player2ThrownCards := thrownOf g p1 in
  if bool_decide (length player1ThrownCards = length player2ThrownCards) then
    let player1LastCardValue := getCardValue (last player1ThrownCards) in
    let player2LastCardValue := getCardValue (last player2ThrownCards) in
    let next :=
      if bool_decide (player1LastCardValue = player2LastCardValue)
      then (if bool_decide (playerTurn (state g) = Some p0) then p1 else p0)
      else (if bool_decide (player2LastCardValue < player1LastCardValue) then p0 else p1) in
    mret (copy_state (with_playerTurn (Some next) (state g)) g)
  else
    let next :=
      if bool_decide (length player1ThrownCards < length player2ThrownCards)%nat
      then p0 else p1 in
    mret (copy_state (with_playerTurn (Some next) (state g)) g).

Definition withWinnerResult (g : Game) : result (option Game) :=
  p0 ← playerId g 0;
  let s0 := toNumber (points (state g) !! p0) in
  reached ← (if num_geb s0 (Num MAX_POINTS) then mret true
             else p1 ← playerId g 1;
                  mret (num_geb (toNumber (points (state g) !! p1)) (Num MAX_POINTS)));
  if (reached : bool) then
    w ← (if num_geb s0 s0 then mret p0 else playerId g 1);
    let gameResultEvent := RESULT w (points (state g)) in
    mret (Some (copy_events_state (events g ++ [gameResultEvent])
                  (with_winner (Some w) (state g)) g))
  else mret None.

Definition withNextRoundOrWin (deal : list Card * list Card) (g : Game) : result Game :=
  won ← withWinnerResult g;
  match won with
  | Some g' => mret g'
  | None =>
    p0 ← playerId g 0;
    p1 ← playerId g 1;
    let hands := <[p1 := deal.2]> (<[p0 := deal.1]> ∅) in
    let r := round (state g) + 1 in
    let first := if bool_decide (firstPlayer (state g) = p0) then p1 else p0 in
    let nextRoundEvent := NEXT_ROUND hands r first in
    mret (copy_events_state (events g ++ [nextRoundEvent])
      {| started := true; winner := None; round := r; cards := hands;
         firstPlayer := first; thrownCards := ∅; playerTurn := Some first;
         trucoPoints := 1; points := points (state g);
         envido := emptyEnvido |} g)
  end.

(** [points[winner] + extraPoints] is the sum of the integers: that of
    the code on safe integers. *)
Definition setRoundWinner (deal : list Card * list Card) (w : UserId) (g : Game) : result Game :=
  let extraPoints := trucoPoints (state g) in
  let pts : UsersPoints :=
    <[w := num_add (toNumber (points (state g) !! w)) (Num extraPoints)]> (points (state g)) in
  let roundResultEvent := ROUND_RESULT w pts in
  withNextRoundOrWin deal
    (copy_events_state (events g ++ [roundResultEvent]) (with_points pts (state g)) g).

Definition withRoundWinnerValidation (deal : list Card * list Card) (g : Game) : result Game :=
  match getRoundWinner (getPlayersIds g) (thrownCards (state g)) with
  | None => mret g
  | Some w => setRoundWinner deal w g
  end.

(** The game after the card has moved and the turn has advanced, with the
    THROW_CARD event appended: what [throwCard] hands to
    [withRoundWinnerValidation]. *)
Definition throwCardMoved (userId : UserId) (card : Card) (hand : list Card) (g : Game) : result Game :=
  updatedGame ← setNextTurnPlayer
    (copy_state
       (with_cards_thrown
          (<[userId := filter (λ c, c ≠ card) hand]> (cards (state g)))
          (<[userId := thrownOf g userId ++ [card]]> (thrownCards (state g)))
          (state g)) g);
  let throwCardEvent := THROW_CARD userId card (playerTurn (state updatedGame)) in
  mret (copy_events (events g ++ [throwCardEvent]) updatedGame).

Definition throwCard (deal : list Card * list Card) (userId : UserId) (card : Card) (g : Game) : result Game :=
  if bool_decide (playerTurn (state g) ≠ Some userId) then Err NotYourTurn
  else if isWaitingResponse g then Err WaitingResponse
  else
    hand ← defined (cards (state g) !! userId);
    if negb (bool_decide (card ∈ hand)) then Err InvalidCard
    else
      moved ← throwCardMoved userId card hand g;
      withRoundWinnerValidation deal moved.

Definition isValidEnvidoCall (c : EnvidoCall) (g : Game) : bool :=
  let cs := calls (envido (state g)) in
  if bool_decide (length cs = 0%nat) then true
  else
    match last cs with
    | Some ENVIDO =>
        bool_decide (c = ENVIDO) && bool_decide (length cs = 1%nat)
        || bool_decide (c = REAL_ENVIDO)
        || bool_decide (c = FALTA_ENVIDO)
    | Some REAL_ENVIDO => bool_decide (c = FALTA_ENVIDO)
    | Some FALTA_ENVIDO => false
    | None => false   (* not reached: the list is not empty *)
    end.

(** [envido.firstCaller || userId]: [undefined] and [0] are falsy. *)
Definition firstCallerOr (first : option UserId) (userId : UserId) : UserId :=
  match first with
  | Some f => if bool_decide (f = 0) then userId else f
  | None => userId
  end.

(** [Game.envido(userId, call)]; called [callEnvido] here, [envido] being
    the field of the state. *)
Definition callEnvido (userId : UserId) (c : EnvidoCall) (g : Game) : result Game :=
  if bool_decide (playerTurn (state g) ≠ Some userId) then Err NotYourTurn
  else
    s ← step g;
    if bool_decide (s ≠ 1%nat) then Err InvalidStep
    else
      let e := envido (state g) in
      if negb (isValidEnvidoCall c g) then Err InvalidEnvidoCall
      else
        let newEnvido := {|
          calls := calls e ++ [c];
          firstCaller := Some (firstCallerOr (firstCaller e) userId);
          lastCaller := Some userId;
          acceptedBy := None;
          accepted := None;
          envidoWinner := None;
          playersPoints := None;
          waitingResponse := true;
        |} in
        let envidoCallEvent := ENVIDO_CALL c userId in
        other ← otherPlayerId g userId;
        let s := state g in
        mret (copy_events_state (events g ++ [envidoCallEvent])
          {| started := started s; firstPlayer := firstPlayer s;
             playerTurn := Some other; winner := winner s; round := round s;
             cards := cards s; thrownCards := thrownCards s;
             trucoPoints := trucoPoints s; points := points s;
             envido := newEnvido |} g).

(** The body of the loop of [getEnvidoPoints]; the opponent is looked up
    only when a FALTA_ENVIDO is met. *)
Definition getEnvidoPoints_step (g : Game) (w : UserId) (acc : result num) (c : EnvidoCall) : result num :=
  pts ← acc;
  match c with
  | ENVIDO => mret (num_add pts (Num 2))
  | REAL_ENVIDO => mret (num_add pts (Num 3))
  | FALTA_ENVIDO =>
      loser ← otherPlayerId g w;
      let otherPoints := toNumber (points (state g) !! loser) in
      if num_ltb otherPoints (Num 15)
      then mret (num_add pts (Num MAX_POINTS))
      else mret (num_add pts (num_sub (Num 30) otherPoints))
  end.

Definition getEnvidoPoints (w : UserId) (g : Game) : result num :=
  fold_left (getEnvidoPoints_step g w) (calls (envido (state g))) (Ok (Num 0)).

(** [[...this.state.cards[id], ...this.state.thrownCards[id] || []]]:
    spreading an [undefined] hand is a TypeError. *)
Definition allCardsOf (g : Game) (u : UserId) : result (list Card) :=
  hand ← defined (cards (state g) !! u);
  mret (hand ++ thrownOf g u).

(** A key that is [undefined] names the property "undefined", which no
    user id reads: such an entry is left out of the map. *)
Definition analyzeEnvido (userId : UserId) (acc : bool) (g : Game)
  : result (option UserId * UsersPoints) :=
  let e := envido (state g) in
  if negb acc then
    let base : UsersPoints :=
      match lastCaller e with
      | Some l => <[l := Num (Z.of_nat (length (calls e)))]> ∅
      | None => ∅
      end in
    mret (lastCaller e, <[userId := Num 0]> base)
  else
    p0 ← playerId g 0;
    cs0 ← allCardsOf g p0;
    let player1EnvidoPoints := getEnvidoCardsValue cs0 in
    p1 ← playerId g 1;
    cs1 ← allCardsOf g p1;
    let player2EnvidoPoints := getEnvidoCardsValue cs1 in
    let w :=
      if bool_decide (player1EnvidoPoints = player2EnvidoPoints)
      then firstPlayer (state g)
      else if bool_decide (player2EnvidoPoints < player1EnvidoPoints) then p0 else p1 in
    won ← getEnvidoPoints w g;
    loser ← otherPlayerId g w;
    mret (Some w, <[loser := Num 0]> (<[w := won]> ∅)).

Definition answerEnvido (userId : UserId) (acc : bool) (g : Game) : result Game :=
  if bool_decide (playerTurn (state g) ≠ Some userId) then Err NotYourTurn
  else
    s ← step g;
    if bool_decide (s ≠ 1%nat) then Err InvalidStep
    else
      let e := envido (state g) in
      if negb (waitingResponse e) then Err NotWaitingResponse
      else
        '(w, pp) ← analyzeEnvido userId acc g;
        let newEnvido := {|
          calls := calls e;
          firstCaller := firstCaller e;
          lastCaller := lastCaller e;
          acceptedBy := Some userId;
          accepted := Some acc;
          envidoWinner := w;
          playersPoints := Some pp;
          waitingResponse := false;
        |} in
        p0 ← playerId g 0;
        p1 ← playerId g 1;
        let old := points (state g) in
        let pts : UsersPoints :=
          <[p1 := num_add (toNumber (old !! p1)) (toNumber (pp !! p1))]>
            (<[p0 := num_add (toNumber (old !! p0)) (toNumber (pp !! p0))]> ∅) in
        let envidoEvent :=
          if acc then ENVIDO_ACCEPTED userId pts else ENVIDO_DECLINED userId pts in
        let s := state g in
        let game := copy_events_state (events g ++ [envidoEvent])
          {| started := started s; firstPlayer := firstPlayer s;
             playerTurn := firstCaller newEnvido; winner := winner s;
             round := round s; cards := cards s;
             thrownCards := thrownCards s; trucoPoints := trucoPoints s;
             points := pts; envido := newEnvido |} g in
        gameWithWinnerAnalysis ← withWinnerResult game;
        mret (default game gameWithWinnerAnalysis).

Definition goToDeck (deal : list Card * list Card) (userId : UserId) (g : Game) : result Game :=
  if bool_decide (playerTurn (state g) ≠ Some userId) then Err NotYourTurn
  else if isWaitingResponse g then Err WaitingResponse
  else
    w ← otherPlayerId g userId;
    let toDeckEvent := TO_DECK userId in
    setRoundWinner deal w (copy_events (events g ++ [toDeckEvent]) g).

(** [this.events.slice(oldGame.events.length)] *)
Definition getNewEvents (oldGame g : Game) : list GameEvent :=
  drop (length (events oldGame)) (events g).

(** What [withWinnerResult] returns for a game of two players. *)
Definition winnerResultOf g (p0 p1 : UserId) : option Game :=
  let s0 := toNumber (points (state g) !! p0) in
  let s1 := toNumber (points (state g) !! p1) in
  if num_geb s0 (Num MAX_POINTS) || num_geb s1 (Num MAX_POINTS) then
    let w := if num_geb s0 s0 then p0 else p1 in
    Some (copy_events_state (events g ++ [RESULT w (points (state g))])
            (with_winner (Some w) (state g)) g)
  else None.

Definition isTrucoEvent (e : GameEvent) : bool :=
  match e with
  | TRUCO_CALL _ _ | TRUCO_ACCEPT _ _ | TRUCO_DECLINE _ _ => true
  | _ => false
  end.

(** The value of one call of the chain as [getEnvidoPoints] counts it,
    [other] being the match score of the player who is not the winner. *)
Definition envidoCallPoints (other : num) (c : EnvidoCall) : num :=
  match c with
  | ENVIDO => Num 2
  | REAL_ENVIDO => Num 3
  | FALTA_ENVIDO =>
      if num_ltb other (Num 15) then Num MAX_POINTS else num_sub (Num 30) other
  end.

(** The same on integers. *)
Definition envidoCallValue (other : Z) (c : EnvidoCall) : Z :=
  match c with
  | ENVIDO => 2
  | REAL_ENVIDO => 3
  | FALTA_ENVIDO => if bool_decide (other < 15) then MAX_POINTS else 30 - other
  end.

Definition num_sum (l : list num) : num := fold_left num_add l (Num 0).

Definition sumZ (l : list Z) : Z := fold_left Z.add l 0.

(** The envido of [g], answered by [u], is settled in [g']: [w] has won
    [award] points and [loser] none, the points are added to the match
    score, the event of the answer is appended and the turn is back with
    the first caller. *)
Definition envidoSettled (g g' : Game) (u : UserId) (acc : bool)
    (w loser : UserId) (award : num) : Prop :=
  envidoWinner (envido (state g')) = Some w
  ∧ (∃ pp, playersPoints (envido (state g')) = Some pp
           ∧ pp !! w = Some award ∧ pp !! loser = Some (Num 0))
  ∧ points (state g') !! w
    = Some (num_add (toNumber (points (state g) !! w)) award)
  ∧ points (state g') !! loser
    = Some (num_add (toNumber (points (state g) !! loser)) (Num 0))
  ∧ (∃ rest, events g' = events g
       ++ (if acc then ENVIDO_ACCEPTED u (points (state g'))
           else ENVIDO_DECLINED u (points (state g'))) :: rest)
  ∧ playerTurn (state g') = firstCaller (envido (state g))
  ∧ calls (envido (state g')) = calls (envido (state g))
  ∧ waitingResponse (envido (state g')) = false
  ∧ acceptedBy (envido (state g')) = Some u
  ∧ accepted (envido (state g')) = Some acc.

(** [g'] carries the events of [g] and at least one more, none of them a
    truco event. *)
Definition advances (g g' : Game) : Prop :=
  ∃ es, events g' = events g ++ es ∧ es ≠ []
        ∧ Forall (λ e, isTrucoEvent e = false) es.

(** The value of the round is kept, or is back to 1. *)
Definition keepsTrucoPoints (g g' : Game) : Prop :=
  trucoPoints (state g') = trucoPoints (state g) ∨ trucoPoints (state g') = 1.

(** The transitions of the aggregate that return a game, as one type of
    actions: every public method of [Game] that builds a new [Game]. *)
Inductive Action : Type :=
| Join (user : SafeUser)
| Start (deal : list Card * list Card)
| ThrowCard (deal : list Card * list Card) (userId : UserId) (card : Card)
| CallEnvido (userId : UserId) (c : EnvidoCall)
| AnswerEnvido (userId : UserId) (acc : bool)
| GoToDeck (deal : list Card * list Card) (userId : UserId).

Definition perform (a : Action) (g : Game) : result Game :=
  match a with
  | Join user => mret (join user g)
  | Start deal => start deal g
  | ThrowCard deal userId card => throwCard deal userId card g
  | CallEnvido userId c => callEnvido userId c g
  | AnswerEnvido userId acc => answerEnvido userId acc g
  | GoToDeck deal userId => goToDeck deal userId g
  end.

Definition isJoin (a : Action) : bool :=
  match a with
  | Join _ => true
  | _ => false
  end.

(** A sequence of actions, stopped by the first error. *)
Fixpoint run (acts : list Action) (g : Game) : result Game :=
  match acts with
  | [] => mret g
  | a :: rest => g' ← perform a g; run rest g'
  end.

(** Some player of the pair has reached MAX_POINTS. *)
Definition reachedMaxPoints (pts : UsersPoints) (p0 p1 : UserId) : bool :=
  num_geb (toNumber (pts !! p0)) (Num MAX_POINTS)
  || num_geb (toNumber (pts !! p1)) (Num MAX_POINTS).

(** Two games that differ at most in [state.winner]. *)
Definition sameButWinner (g1 g2 : Game) : Prop :=
  game_id g1 = game_id g2 ∧ name g1 = name g2 ∧ players g1 = players g2
  ∧ events g1 = events g2
  ∧ with_winner None (state g1) = with_winner None (state g2).

Definition sameOutcome (r1 r2 : result Game) : Prop :=
  match r1, r2 with
  | Ok g1, Ok g2 => sameButWinner g1 g2
  | Err e1, Err e2 => e1 = e2
  | _, _ => False
  end.

End Game.

(** ** A card module after the specification

    Cards.ts is not among the sources.  The definitions of this module
    follow the specification (sections 3 and 4.1); they instantiate the
    parameters of the development wherever a concrete game is run. *)

Module Cards.

Inductive Suit : Type :=
| Espada   (* swords *)
| Basto    (* clubs *)
| Oro      (* coins *)
| Copa.    (* cups *)

#[global] Instance Suit_eq_dec : EqDecision Suit.
Proof. solve_decision. Defined.

(** Modelled from the spec: the type [Card] of Cards.ts, "identified by
    (suit, rank) from the 40-card Spanish deck", with structural
    equality. *)
Record Card : Type := {
  suit : Suit;
  rank : Z;
}.

#[global] Instance Card_eq_dec : EqDecision Card.
Proof. solve_decision. Defined.

(** Modelled from the spec: [getCardValue] of Cards.ts, the hierarchy
    "1 of swords > 1 of clubs > 7 of swords > 7 of coins > all 3s > all 2s
    > 1 of cups = 1 of coins > 12s > 11s > 10s > 7 of cups = 7 of clubs >
    6s > 5s > 4s"; no card ([undefined]) is given 0. *)
Definition getCardValue (oc : option Card) : Z :=
  match oc with
  | None => 0
  | Some c =>
    match rank c, suit c with
    | 1, Espada => 14
    | 1, Basto => 13
    | 7, Espada => 12
    | 7, Oro => 11
    | 3, _ => 10
    | 2, _ => 9
    | 1, _ => 8
    | 12, _ => 7
    | 11, _ => 6
    | 10, _ => 5
    | 7, _ => 4
    | 6, _ => 3
    | 5, _ => 2
    | 4, _ => 1
    | _, _ => 0
    end
  end.

(** Face cards 10, 11 and 12 count as 0, numbered cards as their face. *)
Definition envidoRank (c : Card) : Z :=
  if bool_decide (10 ≤ rank c) then 0 else rank c.

(** The scores 20 + r + r' of every two cards that share a suit. *)
Fixpoint pairScores (cs : list Card) : list Z :=
  match cs with
  | [] => []
  | c :: rest =>
      map (λ d, 20 + envidoRank c + envidoRank d)
          (filter (λ d, suit d = suit c) rest)
      ++ pairScores rest
  end.

Definition maximum (zs : list Z) : Z := fold_right Z.max 0 zs.

(** Modelled from the spec: [getEnvidoCardsValue] of Cards.ts, "if two or
    more share a suit, the score is 20 + sum of the two highest envido
    ranks of that suit; otherwise the score is the maximum single envido
    rank among the cards". *)
Definition getEnvidoCardsValue (cs : list Card) : Z :=
  match pairScores cs with
  | [] => maximum (map envidoRank cs)
  | ps => maximum ps
  end.

Inductive Trick : Type :=
| WonBy (u : UserId)
| Parda.

(** The tricks both players have completed, in order. *)
Fixpoint tricks (a b : UserId) (ca cb : list Card) : list Trick :=
  match ca, cb with
  | x :: ca', y :: cb' =>
      (if bool_decide (getCardValue (Some x) = getCardValue (Some y)) then Parda
       else if bool_decide (getCardValue (Some y) < getCardValue (Some x))
            then WonBy a else WonBy b)
      :: tricks a b ca' cb'
  | _, _ => []
  end.

(** Modelled from the spec: [getRoundWinner] of Cards.ts, best of three
    tricks, decided "as soon as the outcome is mathematically determined
    (two tricks won outright, or a win-then-parda sequence)", undecided
    otherwise; three drawn tricks go to the first of [playerIds], the
    only mano the function can know. *)
Definition getRoundWinner (playerIds : list UserId) (thrown : gmap UserId (list Card)) : option UserId :=
  match playerIds with
  | a :: b :: _ =>
    match tricks a b (default [] (thrown !! a)) (default [] (thrown !! b)) with
    | WonBy x :: WonBy y :: rest =>
        if bool_decide (x = y) then Some x
        else match rest with
             | WonBy z :: _ => Some z
             | Parda :: _ => Some x
             | [] => None
             end
    | WonBy x :: Parda :: _ => Some x
    | Parda :: WonBy y :: _ => Some y
    | Parda :: Parda :: WonBy z :: _ => Some z
    | Parda :: Parda :: Parda :: _ => Some a
    | _ => None
    end
  | _ => None
  end.

End Cards.

(** ** Concrete games *)

Module Scenario.
Import Cards.

Definition ana : SafeUser := {| user_id := 1; username := "ana" |}.
Definition beto : SafeUser := {| user_id := 2; username := "beto" |}.

Definition card (s : Suit) (r : Z) : Card := {| suit := s; rank := r |}.

Definition hands1 : list Card * list Card :=
  ([card Espada 1; card Espada 7; card Copa 5],
   [card Copa 4; card Oro 4; card Basto 6]).

Definition hands2 : list Card * list Card :=
  ([card Oro 3; card Basto 2; card Copa 12],
   [card Espada 5; card Copa 7; card Oro 1]).

(** A started game of ana (players[0]) and beto (players[1]). *)
Definition table (pts1 pts2 : Z) (mano turn : UserId)
    (hand1 hand2 thrown1 thrown2 : list Card) (e : Envido) : Game := {|
  game_id := 7;
  name := "ana";
  players := [ana; beto];
  events := [];
  state := {|
    started := true;
    firstPlayer := mano;
    playerTurn := Some turn;
    winner := None;
    round := 1;
    cards := <[2 := hand2]> (<[1 := hand1]> ∅);
    thrownCards := <[2 := thrown2]> (<[1 := thrown1]> ∅);
    trucoPoints := 1;
    points := <[2 := Num pts2]> (<[1 := Num pts1]> ∅);
    envido := e;
  |};
|}.

Definition perform' : Action → Game → result Game :=
  perform getCardValue getEnvidoCardsValue getRoundWinner.

Definition run' : list Action → Game → result Game :=
  run getCardValue getEnvidoCardsValue getRoundWinner.

(** Both players go to the deck in turn, nine times: beto reaches five
    points on the ninth. *)
Definition nineFolds : list Action :=
  [Join beto; Start hands1;
   GoToDeck hands2 1; GoToDeck hands1 2; GoToDeck hands2 1;
   GoToDeck hands1 2; GoToDeck hands2 1; GoToDeck hands1 2;
   GoToDeck hands2 1; GoToDeck hands1 2; GoToDeck hands2 1].

(** The game after [nineFolds]. *)
Definition afterNine : Game :=
  Eval vm_compute in
    match run' nineFolds (new ana) with
    | Ok g => g
    | Err _ => new ana
    end.

(** The first round, just dealt: ana is the mano and is to play. *)
Definition opening : Game :=
  table 0 0 1 1 hands1.1 hands1.2 [] [] emptyEnvido.

(** Ana, the mano, has called ENVIDO; beto is to answer. *)
Definition envidoCalled : Envido := {|
  calls := [ENVIDO];
  firstCaller := Some 1;
  lastCaller := Some 1;
  acceptedBy := None;
  accepted := None;
  waitingResponse := true;
  envidoWinner := None;
  playersPoints := None;
|}.

Definition envidoPending : Game :=
  table 0 0 1 2 hands1.1 hands1.2 [] [] envidoCalled.

(** ENVIDO, ENVIDO: beto has answered ana's call with a second one. *)
Definition envidoTwice : Game :=
  table 0 0 1 1 hands1.1 hands1.2 [] []
    {| calls := [ENVIDO; ENVIDO]; firstCaller := Some 1;
       lastCaller := Some 2; acceptedBy := None; accepted := None;
       waitingResponse := true; envidoWinner := None;
       playersPoints := None |}.



(** Ana has called FALTA_ENVIDO at 14 to 10; beto is to answer. *)
Definition faltaPending : Game :=
  table 14 10 1 2 hands1.2 hands1.1 [] []
    {| calls := [FALTA_ENVIDO]; firstCaller := Some 1;
       lastCaller := Some 1; acceptedBy := None; accepted := None;
       waitingResponse := true; envidoWinner := None;
       playersPoints := None |}.


(** [opening] after ana has thrown the 1 of swords. *)
Definition firstThrown : Game :=
  Eval vm_compute in
    match perform' (ThrowCard hands2 1 (card Espada 1)) opening with
    | Ok g => g
    | Err _ => opening
    end.

(** [envidoPending] after beto has answered with REAL_ENVIDO. *)
Definition realCalled : Game :=
  Eval vm_compute in
    match perform' (CallEnvido 2 REAL_ENVIDO) envidoPending with
    | Ok g => g
    | Err _ => envidoPending
    end.

(** Ana has no point, beto (the mano) has five. *)
Definition lateLeader : Game :=
  table 0 5 2 2 hands1.1 hands1.2 [] [] emptyEnvido.

End Scenario.

(** * Invariants of the games in play *)

Section Invariants.

Context {Card : Type}.

Implicit Types g : @Game Card.

(** The player to move is one of the players. *)
Definition turnOfPlayer g : Prop :=
  ∃ u, playerTurn (state g) = Some u ∧ u ∈ getPlayersIds g.

(** The first caller of the envido, when there is one, is a player. *)
Definition firstCallerIsPlayer g : Prop :=
  ∀ f, firstCaller (envido (state g)) = Some f → f ∈ getPlayersIds g.

(** While the envido awaits an answer, a first and a last caller are
    recorded and the player to move is not the last caller. *)
Definition envidoAwaitsOpponent g : Prop :=
  waitingResponse (envido (state g)) = true →
  ∃ l o, lastCaller (envido (state g)) = Some l
         ∧ playerTurn (state g) = Some o
         ∧ o ≠ l
         ∧ is_Some (firstCaller (envido (state g))).

Definition wellTurned g : Prop :=
  turnOfPlayer g ∧ firstCallerIsPlayer g ∧ envidoAwaitsOpponent g.

(** The users that a sequence of actions makes join, in order. *)
Fixpoint joined (acts : list (@Action Card)) : list SafeUser :=
  match acts with
  | [] => []
  | Join user :: rest => user :: joined rest
  | _ :: rest => joined rest
  end.

End Invariants.

(** * The socket manager (delivery/socket/index.ts)

    [SocketManager.sockets] is a [Map] from user ids to sockets; what
    [socket.emit(event, data)] sends is recorded as the list of the
    emissions, in order. *)

Section Sockets.

Context {Socket Data : Type}.

Record Emission : Type := {
  target : Socket;
  eventName : string;
  payload : Data;
}.

(** The handler of 'register-connection': [this.sockets.set(userId, socket)]. *)
Definition registerConnection (userId : UserId) (socket : Socket)
    (sockets : gmap UserId Socket) : gmap UserId Socket :=
  <[userId := socket]> sockets.

Definition emitToUser (sockets : gmap UserId Socket) (userId : UserId)
    (event : string) (data : Data) : list Emission :=
  match sockets !! userId with
  | Some socket => [{| target := socket; eventName := event; payload := data |}]
  | None => []
  end.

Definition emitToUsers (sockets : gmap UserId Socket) (userIds : list UserId)
    (event : string) (data : Data) : list Emission :=
  flat_map (λ userId, emitToUser sockets userId event data) userIds.

End Sockets.


Section Frames.

Context {Card : Type}.

Implicit Types g : @Game Card.

(** The game of the next round, as [withNextRoundOrWin] builds it for
    the players [p0] and [p1]. *)
Definition nextRoundOf (deal : list Card * list Card) g (p0 p1 : UserId) : Game :=
  let hands := <[p1 := deal.2]> (<[p0 := deal.1]> ∅) in
  let first := if bool_decide (firstPlayer (state g) = p0) then p1 else p0 in
  copy_events_state
    (events g ++ [NEXT_ROUND hands (round (state g) + 1) first])
    {| started := true; winner := None; round := round (state g) + 1;
       cards := hands; firstPlayer := first; thrownCards := ∅;
       playerTurn := Some first; trucoPoints := 1;
       points := points (state g); envido := emptyEnvido |} g.

(** Same id, name and players. *)
Definition sameSeats g g' : Prop :=
  game_id g' = game_id g ∧ name g' = name g ∧ players g' = players g.

(** The round is the same or the next one. *)
Definition roundStep g g' : Prop :=
  round (state g') = round (state g)
  ∨ round (state g') = round (state g) + 1.

End Frames.


Section Scores.

Context {Card : Type}.

Implicit Types g : @Game Card.

(** The last caller of the envido, when there is one, is a player. *)
Definition lastCallerIsPlayer g : Prop :=
  ∀ l, lastCaller (envido (state g)) = Some l → l ∈ getPlayersIds g.

(** A game of exactly two players with different ids, whose mano is one
    of them and whose scores are both numbers. *)
Definition numericScores g : Prop :=
  ∃ P0 P1 a b,
    players g = [P0; P1]
    ∧ user_id P0 ≠ user_id P1
    ∧ (firstPlayer (state g) = user_id P0 ∨ firstPlayer (state g) = user_id P1)
    ∧ points (state g) !! user_id P0 = Some (Num a)
    ∧ points (state g) !! user_id P1 = Some (Num b).

Definition seated g : Prop :=
  wellTurned g ∧ lastCallerIsPlayer g ∧ numericScores g.

(** What is asked of [getRoundWinner]: the winner it names is one of the
    ids it was given. *)
Definition namesAPlayer
    (getRoundWinner : list UserId → gmap UserId (list Card) → option UserId)
    : Prop :=
  ∀ ids thrown w, getRoundWinner ids thrown = Some w → w ∈ ids.

End Scores.


(** * The range where the sums of the code are exact *)

Section Exactness.

Context {Card : Type}.

Implicit Types g : @Game Card.

(** The round number, the value of the round and the scores of [g] are
    at most 2^50 in absolute value.  Every number that a transition
    computes from them is then a safe integer: a score plus the value of
    the round, the round number plus one, 30 minus a score, the award of
    an envido of at most four calls and a score plus that award.  On
    such games the sums of the model are those of the code. *)
Definition safeScores g : Prop :=
  Z.abs (round (state g)) ≤ 2 ^ 50
  ∧ Z.abs (trucoPoints (state g)) ≤ 2 ^ 50
  ∧ ∀ p n, points (state g) !! p = Some (Num n) → Z.abs n ≤ 2 ^ 50.

End Exactness.


(** * More concrete games *)

Module Play.
Import Cards Scenario.

(** Ana's new game. *)
Definition fresh : @Game Card := new ana.

(** Ana's game once beto has joined, before [start]. *)
Definition lobby : @Game Card := join beto fresh.

(** [afterNine] after ana has gone to the deck once more. *)
Definition afterTen : @Game Card :=
  Eval vm_compute in
    match perform' (GoToDeck hands2 1) afterNine with
    | Ok g => g
    | Err _ => afterNine
    end.

(** [opening] after ana has called ENVIDO. *)
Definition envidoOpened : @Game Card :=
  Eval vm_compute in
    match perform' (CallEnvido 1 ENVIDO) opening with
    | Ok g => g
    | Err _ => opening
    end.

(** [envidoPending] after beto has accepted. *)
Definition envidoAccepted : @Game Card :=
  Eval vm_compute in
    match perform' (AnswerEnvido 2 true) envidoPending with
    | Ok g => g
    | Err _ => envidoPending
    end.

(** [firstThrown] after beto has answered with the 4 of cups. *)
Definition firstTrickDone : @Game Card :=
  Eval vm_compute in
    match perform' (ThrowCard hands2 2 (card Copa 4)) firstThrown with
    | Ok g => g
    | Err _ => firstThrown
    end.

(** Ana, the mano, has thrown the 1 of swords and holds the 7 of swords
    and the 5 of cups; beto, who holds 27 of envido in coins, has called
    ENVIDO and ana is to answer. *)
Definition envidoAfterThrow : @Game Card :=
  table 0 0 1 1 [card Espada 7; card Copa 5]
    [card Oro 4; card Oro 3; card Basto 6] [card Espada 1] []
    {| calls := [ENVIDO]; firstCaller := Some 2; lastCaller := Some 2;
       acceptedBy := None; accepted := None; waitingResponse := true;
       envidoWinner := None; playersPoints := None |}.


(** Two connections: ana on socket 10, beto on socket 20. *)
Definition connections : gmap UserId nat :=
  registerConnection 2 20%nat (registerConnection 1 10%nat ∅).

End Play.


(** * Properties *)

Section Properties.

Context {Card : Type} `{EqDecision Card}.
Variable getCardValue : option Card → Z.
Variable getEnvidoCardsValue : list Card → Z.
Variable getRoundWinner : list UserId → gmap UserId (list Card) → option UserId.

Implicit Types (g : @Game Card) (u w : UserId) (deal : list Card * list Card).

(** Case analysis on the outcome of every step of a monadic computation
    that is known to have succeeded (or failed) as hypothesis [H]. *)
Ltac unbind H :=
  repeat (
    unfold mbind, mret, result_bind, result_ret, defined in H; simpl in H;
    match type of H with
    | context [match ?r with Ok _ => _ | Err _ => _ end] =>
        destruct r eqn:?; simpl in H; try discriminate H
    | context [match ?o with Some _ => _ | None => _ end] =>
        destruct o eqn:?; simpl in H; try discriminate H
    | context [if ?b then _ else _] =>
        destruct b eqn:?; simpl in H; try discriminate H
    end).

(** ** Players *)

Lemma playerId_lookup g i P :
  players g !! i = Some P → playerId g i = Ok (user_id P).
Proof. intros HP. unfold playerId. rewrite HP. reflexivity. Qed.

(** ** The match winner *)

Lemma withWinnerResult_two_players g P0 P1 :
  players g !! 0%nat = Some P0 →
  players g !! 1%nat = Some P1 →
  withWinnerResult g = Ok (winnerResultOf g (user_id P0) (user_id P1)).
Proof.
  intros H0 H1. unfold withWinnerResult, winnerResultOf.
  rewrite (playerId_lookup _ _ _ H0), (playerId_lookup _ _ _ H1). simpl.
  destruct (toNumber (points (state g) !! user_id P0)) as [a|]; simpl.
  - destruct (bool_decide (MAX_POINTS ≤ a)) eqn:Ha; simpl.
    + rewrite bool_decide_eq_true_2 by lia. reflexivity.
    + destruct (num_geb _ _); simpl; [|reflexivity].
      rewrite bool_decide_eq_true_2 by lia. reflexivity.
  - destruct (num_geb _ _); reflexivity.
Qed.

Lemma withWinnerResult_some g g' :
  withWinnerResult g = Ok (Some g') →
  ∃ w, g' = copy_events_state (events g ++ [RESULT w (points (state g))])
              (with_winner (Some w) (state g)) g.
Proof.
  unfold withWinnerResult. intros Hw. unbind Hw; simplify_eq; eauto.
Qed.

(** With two players and a numeric score for the first, the winner that
    [withWinnerResult] names, if any, is [players[0]]. *)
Lemma withWinnerResult_first_player g P0 P1 a g' :
  players g !! 0%nat = Some P0 →
  players g !! 1%nat = Some P1 →
  points (state g) !! user_id P0 = Some (Num a) →
  withWinnerResult g = Ok (Some g') →
  winner (state g') = Some (user_id P0).
Proof.
  intros H0 H1 Ha. rewrite (withWinnerResult_two_players _ _ _ H0 H1).
  unfold winnerResultOf. rewrite Ha. simpl.
  rewrite (bool_decide_eq_true_2 (a ≤ a)) by lia.
  destruct (_ || _); intros [= <-]; reflexivity.
Qed.

(** ** Events and the value of the round along the transitions *)

Ltac solve_advances :=
  unfold advances; simpl; rewrite <- ?app_assoc; simpl;
  eexists; split; [reflexivity | split; [discriminate | repeat constructor]].

Lemma advances_trans g1 g2 g3 :
  advances g1 g2 → advances g2 g3 → advances g1 g3.
Proof.
  intros (es1 & E1 & N1 & F1) (es2 & E2 & N2 & F2).
  exists (es1 ++ es2). rewrite E2, E1, app_assoc. split; [reflexivity|].
  split; [destruct es1; [done | discriminate] | by apply Forall_app].
Qed.

Lemma keepsTrucoPoints_trans g1 g2 g3 :
  keepsTrucoPoints g1 g2 → keepsTrucoPoints g2 g3 → keepsTrucoPoints g1 g3.
Proof.
  unfold keepsTrucoPoints.
  intros [?|?] [?|?]; [left | right | right | right]; congruence.
Qed.

Lemma withNextRoundOrWin_advances deal g g' :
  withNextRoundOrWin deal g = Ok g' →
  advances g g' ∧ keepsTrucoPoints g g'.
Proof.
  unfold withNextRoundOrWin. intros Hn.
  destruct (withWinnerResult g) as [[gw|]|] eqn:Hw; simpl in Hn;
    try discriminate Hn.
  - injection Hn as <-. apply withWinnerResult_some in Hw as [w ->].
    split; [solve_advances | by left].
  - unbind Hn; injection Hn as <-; (split; [solve_advances | by right]).
Qed.

Lemma setRoundWinner_advances deal w g g' :
  setRoundWinner deal w g = Ok g' →
  advances g g' ∧ keepsTrucoPoints g g'.
Proof.
  unfold setRoundWinner. intros Hs.
  apply withNextRoundOrWin_advances in Hs as [Ha Hk]. split.
  - eapply advances_trans; [|exact Ha]. solve_advances.
  - exact Hk.
Qed.

Lemma withRoundWinnerValidation_ok deal g g' :
  withRoundWinnerValidation getRoundWinner deal g = Ok g' →
  g' = g ∨ (advances g g' ∧ keepsTrucoPoints g g').
Proof.
  unfold withRoundWinnerValidation.
  destruct (getRoundWinner _ _) as [w|].
  - intros Hs. right. by eapply setRoundWinner_advances.
  - intros [= <-]. by left.
Qed.

Lemma setNextTurnPlayer_ok g g' :
  setNextTurnPlayer getCardValue g = Ok g' →
  ∃ t, g' = copy_state (with_playerTurn (Some t) (state g)) g.
Proof.
  unfold setNextTurnPlayer. intros Hs. unbind Hs; injection Hs as <-; eauto.
Qed.

Lemma throwCardMoved_ok u c hand g g' :
  throwCardMoved getCardValue u c hand g = Ok g' →
  ∃ t, g' = copy_events_state (events g ++ [THROW_CARD u c (Some t)])
    (with_playerTurn (Some t)
       (with_cards_thrown
          (<[u := filter (λ c', c' ≠ c) hand]> (cards (state g)))
          (<[u := thrownOf g u ++ [c]]> (thrownCards (state g)))
          (state g))) g.
Proof.
  unfold throwCardMoved. intros Hm.
  destruct (setNextTurnPlayer _ _) as [g1|] eqn:Hn; simpl in Hm;
    [|discriminate Hm].
  apply setNextTurnPlayer_ok in Hn as [t ->]. injection Hm as <-.
  exists t. reflexivity.
Qed.

Lemma throwCard_advances deal u c g g' :
  throwCard getCardValue getRoundWinner deal u c g = Ok g' →
  advances g g' ∧ keepsTrucoPoints g g'.
Proof.
  unfold throwCard. intros Ht.
  destruct (bool_decide _); [discriminate Ht|].
  destruct (isWaitingResponse g); [discriminate Ht|].
  destruct (cards (state g) !! u) as [hand|]; simpl in Ht; [|discriminate Ht].
  destruct (negb _); [discriminate Ht|].
  destruct (throwCardMoved _ _ _ _ _) as [moved|] eqn:Hm; simpl in Ht;
    [|discriminate Ht].
  apply throwCardMoved_ok in Hm as [t ->].
  apply withRoundWinnerValidation_ok in Ht as [-> | [Ha Hk]].
  - split; [solve_advances | by left].
  - split; [|exact Hk]. eapply advances_trans; [|exact Ha]. solve_advances.
Qed.

Lemma callEnvido_advances u c g g' :
  callEnvido u c g = Ok g' → advances g g' ∧ keepsTrucoPoints g g'.
Proof.
  unfold callEnvido. intros Hc.
  unbind Hc; injection Hc as <-; (split; [solve_advances | by left]).
Qed.

Lemma answerEnvido_advances u acc g g' :
  answerEnvido getEnvidoCardsValue u acc g = Ok g' →
  advances g g' ∧ keepsTrucoPoints g g'.
Proof.
  unfold answerEnvido. intros Hc.
  destruct (bool_decide _); [discriminate Hc|].
  destruct (step g) as [s|]; simpl in Hc; [|discriminate Hc].
  destruct (bool_decide _); [discriminate Hc|].
  destruct (negb _); [discriminate Hc|].
  destruct (analyzeEnvido _ _ _ _) as [[w pp]|]; simpl in Hc; [|discriminate Hc].
  destruct (playerId g 0) as [p0|]; simpl in Hc; [|discriminate Hc].
  destruct (playerId g 1) as [p1|]; simpl in Hc; [|discriminate Hc].
  match type of Hc with
  | context [withWinnerResult ?game] =>
      destruct (withWinnerResult game) as [[gw|]|] eqn:Hw; simpl in Hc;
        try discriminate Hc
  end.
  - injection Hc as <-. apply withWinnerResult_some in Hw as [w' ->].
    split; [destruct acc; solve_advances | by left].
  - injection Hc as <-. split; [destruct acc; solve_advances | by left].
Qed.

Lemma goToDeck_advances deal u g g' :
  goToDeck deal u g = Ok g' → advances g g' ∧ keepsTrucoPoints g g'.
Proof.
  unfold goToDeck. intros Hg.
  destruct (bool_decide _); [discriminate Hg|].
  destruct (isWaitingResponse g); [discriminate Hg|].
  destruct (otherPlayerId g u) as [w|]; simpl in Hg; [|discriminate Hg].
  apply setRoundWinner_advances in Hg as [Ha Hk]. split; [|exact Hk].
  eapply advances_trans; [|exact Ha]. solve_advances.
Qed.

Lemma start_advances deal g g' :
  start deal g = Ok g' → advances g g' ∧ keepsTrucoPoints g g'.
Proof.
  unfold start. intros Hs.
  unbind Hs; injection Hs as <-; (split; [solve_advances | by left]).
Qed.

(** Every transition: the events of the game it returns, its new events
    and the value of the round. *)
Lemma perform_facts a g g' :
  perform getCardValue getEnvidoCardsValue getRoundWinner a g = Ok g' →
  (∃ es, events g' = events g ++ es
         ∧ Forall (λ e, isTrucoEvent e = false) es
         ∧ (es = [] ↔ isJoin a = true))
  ∧ keepsTrucoPoints g g'.
Proof.
  intros Hp.
  assert (isJoin a = false → advances g g' ∧ keepsTrucoPoints g g') as Hadv.
  { destruct a; simpl in *; try discriminate; intros _.
    - by eapply start_advances.
    - by eapply throwCard_advances.
    - by eapply callEnvido_advances.
    - by eapply answerEnvido_advances.
    - by eapply goToDeck_advances. }
  destruct (isJoin a) eqn:Hj.
  - destruct a; try discriminate Hj. injection Hp as <-. split; [|by left].
    exists []. simpl. rewrite app_nil_r. by repeat split.
  - destruct (Hadv eq_refl) as [(es & E & N & F) Hk]. split; [|exact Hk].
    exists es. repeat split; try done.
Qed.

(** C9 (amended): every transition that returns a game keeps the prior
    events as a prefix of the new ones, and [getNewEvents] is exactly the
    suffix appended; start, throwCard, envido, answerEnvido and goToDeck
    append at least one event, join appends none. *)
Theorem transitions_append_events a g g' :
  perform getCardValue getEnvidoCardsValue getRoundWinner a g = Ok g' →
  ∃ es, events g' = events g ++ es
        ∧ getNewEvents g g' = es
        ∧ (es = [] ↔ isJoin a = true).
Proof.
  intros Hp. destruct (perform_facts _ _ _ Hp) as [(es & E & _ & J) _].
  exists es. split; [exact E|]. split; [|exact J].
  unfold getNewEvents. rewrite E. apply drop_app_length.
Qed.

(** C3 (amended): the aggregate has no truco transition.  Whatever
    transition is performed, the value of the round [trucoPoints] is
    kept or reset to 1, and none of the new events is a TRUCO_CALL, a
    TRUCO_ACCEPT or a TRUCO_DECLINE. *)
Theorem transitions_leave_truco_alone a g g' :
  perform getCardValue getEnvidoCardsValue getRoundWinner a g = Ok g' →
  keepsTrucoPoints g g'
  ∧ Forall (λ e, isTrucoEvent e = false) (getNewEvents g g').
Proof.
  intros Hp. destruct (perform_facts _ _ _ Hp) as [(es & E & F & _) Hk].
  split; [exact Hk|]. unfold getNewEvents. rewrite E, drop_app_length.
  exact F.
Qed.

(** ** Calling envido *)

Lemma step_two_players g P0 P1 :
  players g !! 0%nat = Some P0 →
  players g !! 1%nat = Some P1 →
  step g = Ok (Nat.min (length (thrownOf g (user_id P0)))
                       (length (thrownOf g (user_id P1))) + 1)%nat.
Proof.
  intros H0 H1. unfold step.
  rewrite (playerId_lookup _ _ _ H0), (playerId_lookup _ _ _ H1). simpl.
  unfold mret, result_ret. f_equal. case_bool_decide; lia.
Qed.

Lemma otherPlayerId_ok g u o :
  otherPlayerId g u = Ok o →
  o ≠ u ∧ ∃ P, P ∈ players g ∧ user_id P = o.
Proof.
  unfold otherPlayerId. intros Ho.
  destruct (find _ _) as [P|] eqn:Hf; simpl in Ho; [|discriminate Ho].
  injection Ho as <-. apply find_some in Hf as [Hin Hne].
  apply bool_decide_eq_true_1 in Hne. split; [exact Hne|].
  exists P. split; [by apply list_elem_of_In | reflexivity].
Qed.

(** The lookups fail with a TypeError only. *)
Lemma step_err g e : step g = Err e → e = TypeError.
Proof.
  unfold step, playerId. intros Hs.
  destruct (players g !! 0%nat); simpl in Hs; [|congruence].
  destruct (players g !! 1%nat); simpl in Hs; [discriminate Hs | congruence].
Qed.

Lemma otherPlayerId_err g u e : otherPlayerId g u = Err e → e = TypeError.
Proof.
  unfold otherPlayerId. destruct (find _ _); simpl; [discriminate | congruence].
Qed.

(** The game that a successful [envido(userId, call)] returns. *)
Lemma callEnvido_ok u c g o :
  playerTurn (state g) = Some u →
  step g = Ok 1%nat →
  isValidEnvidoCall c g = true →
  otherPlayerId g u = Ok o →
  callEnvido u c g =
    Ok (copy_events_state (events g ++ [ENVIDO_CALL c u])
          {| started := started (state g);
             firstPlayer := firstPlayer (state g);
             playerTurn := Some o; winner := winner (state g);
             round := round (state g); cards := cards (state g);
             thrownCards := thrownCards (state g);
             trucoPoints := trucoPoints (state g);
             points := points (state g);
             envido := {|
               calls := calls (envido (state g)) ++ [c];
               firstCaller :=
                 Some (firstCallerOr (firstCaller (envido (state g))) u);
               lastCaller := Some u; acceptedBy := None; accepted := None;
               envidoWinner := None; playersPoints := None;
               waitingResponse := true |} |} g).
Proof.
  intros Ht Hs Hv Ho. unfold callEnvido.
  rewrite bool_decide_eq_false_2 by (intros Hne; apply Hne; exact Ht).
  rewrite Hs. simpl. rewrite Hv, Ho. reflexivity.
Qed.

Lemma isValidEnvidoCall_legal c g :
  isValidEnvidoCall c g = true ↔ legalEscalation (calls (envido (state g))) c.
Proof.
  unfold isValidEnvidoCall.
  destruct (calls (envido (state g))) as [|c0 cs] using rev_ind.
  - simpl. split; [intros _; constructor | done].
  - rewrite length_app, last_snoc. simpl.
    rewrite bool_decide_eq_false_2 by lia. clear IHcs. split.
    + destruct c0, c; intros Hv;
        rewrite ?orb_true_iff, ?andb_true_iff, ?bool_decide_eq_true in Hv;
        try discriminate Hv; try constructor.
      destruct Hv as [[[_ Hlen]|Hv]|Hv]; try discriminate Hv.
      destruct cs as [|? cs]; [constructor | simpl in Hlen; lia].
    + inversion 1 as [c1 E|E|cs1 E|cs1 E|cs1 E]; subst.
      * by destruct cs.
      * destruct cs as [|? [|? ?]]; simplify_eq/=. reflexivity.
      * apply app_inj_tail in E as [_ <-]. reflexivity.
      * apply app_inj_tail in E as [_ <-]. reflexivity.
      * apply app_inj_tail in E as [_ <-]. reflexivity.
Qed.

Lemma escalationChain_snoc cs c :
  escalationChain cs → legalEscalation cs c → escalationChain (cs ++ [c]).
Proof.
  intros (n & r & f & Hn & ->) Hl.
  assert (n = 0 ∨ n = 1 ∨ n = 2)%nat as Hcases by lia.
  destruct Hcases as [ -> | [ -> | -> ] ]; destruct r, f, c; simpl in *;
    try (inversion Hl as [c1 E|E|cs1 E|cs1 E|cs1 E];
         repeat (destruct cs1 as [|? cs1]; try discriminate E); fail).
  all: first
    [ by (exists 0%nat, false, false)
    | by (exists 1%nat, false, false; split; [lia|])
    | by (exists 2%nat, false, false; split; [lia|])
    | by (exists 0%nat, true, false; split; [lia|])
    | by (exists 1%nat, true, false; split; [lia|])
    | by (exists 2%nat, true, false; split; [lia|])
    | by (exists 0%nat, false, true; split; [lia|])
    | by (exists 1%nat, false, true; split; [lia|])
    | by (exists 2%nat, false, true; split; [lia|])
    | by (exists 0%nat, true, true; split; [lia|])
    | by (exists 1%nat, true, true; split; [lia|])
    | by (exists 2%nat, true, true; split; [lia|]) ].
Qed.

Lemma callEnvido_calls u c g g' :
  callEnvido u c g = Ok g' →
  isValidEnvidoCall c g = true
  ∧ calls (envido (state g')) = calls (envido (state g)) ++ [c].
Proof.
  unfold callEnvido. intros Hc.
  destruct (bool_decide _); [discriminate Hc|].
  destruct (step g) as [s|]; simpl in Hc; [|discriminate Hc].
  destruct (bool_decide _); [discriminate Hc|].
  destruct (isValidEnvidoCall c g); simpl in Hc; [|discriminate Hc].
  destruct (otherPlayerId g u); simpl in Hc; [|discriminate Hc].
  injection Hc as <-. by split.
Qed.

(** C5 (amended): for the player to move in a game of two players,
    [envido(userId, call)] fails with 'Invalid step' exactly when
    [step()] is not 1, that is when both players have thrown at least
    one card; as long as one of them has thrown none, [step()] is 1 and
    the call is not rejected for the step, also when the other player
    has already thrown in the first trick. *)
Theorem envido_invalid_step_iff_both_threw u c g P0 P1 :
  players g !! 0%nat = Some P0 →
  players g !! 1%nat = Some P1 →
  playerTurn (state g) = Some u →
  (callEnvido u c g = Err InvalidStep
   ↔ thrownOf g (user_id P0) ≠ [] ∧ thrownOf g (user_id P1) ≠ [])
  ∧ (step g = Ok 1%nat
     ↔ thrownOf g (user_id P0) = [] ∨ thrownOf g (user_id P1) = []).
Proof.
  intros H0 H1 Ht. unfold callEnvido.
  rewrite bool_decide_eq_false_2 by (intros Hne; apply Hne; exact Ht).
  rewrite (step_two_players _ _ _ H0 H1). simpl.
  destruct (thrownOf g (user_id P0)) as [|x xs],
           (thrownOf g (user_id P1)) as [|y ys]; simpl.
  1-3: split; [|split; [auto | done]];
       destruct (negb _); simpl;
         [|unfold otherPlayerId; destruct (find _ _); simpl];
       (split; [discriminate | intros [? ?]; done]).
  rewrite bool_decide_eq_true_2 by lia. split.
  - split; [done | reflexivity].
  - split; [intros [= E]; lia | intros [?|?]; discriminate].
Qed.

(** C7: [isValidEnvidoCall] accepts exactly the escalations of the
    specification (any call from the empty list; after ENVIDO a second
    ENVIDO only when it is the sole prior call, or REAL_ENVIDO, or
    FALTA_ENVIDO; after REAL_ENVIDO only FALTA_ENVIDO; nothing after
    FALTA_ENVIDO); for the player to move at step 1, [envido] fails with
    'Invalid envido call' on any other call; the chains that [envido]
    builds have ENVIDO at most twice in a row, then REAL_ENVIDO and
    FALTA_ENVIDO at most once each. *)
Theorem isValidEnvidoCall_accepts_exactly_legal_escalations u c g :
  (isValidEnvidoCall c g = true
   ↔ legalEscalation (calls (envido (state g))) c)
  ∧ (playerTurn (state g) = Some u → step g = Ok 1%nat →
     ¬ legalEscalation (calls (envido (state g))) c →
     callEnvido u c g = Err InvalidEnvidoCall)
  ∧ (∀ g', escalationChain (calls (envido (state g))) →
           callEnvido u c g = Ok g' →
           escalationChain (calls (envido (state g')))).
Proof.
  split; [apply isValidEnvidoCall_legal|]. split.
  - intros Ht Hs Hl. unfold callEnvido.
    rewrite bool_decide_eq_false_2 by (intros Hne; apply Hne; exact Ht).
    rewrite Hs. simpl.
    destruct (isValidEnvidoCall c g) eqn:Hv; [|reflexivity].
    by apply isValidEnvidoCall_legal in Hv.
  - intros g' Hch Hc. apply callEnvido_calls in Hc as [Hv ->].
    apply escalationChain_snoc; [exact Hch|].
    by apply isValidEnvidoCall_legal.
Qed.

(** C10: [envido] never fails with 'Waiting response'.  While
    [envido.waitingResponse] is true the player to move may escalate (at
    step 1, with a call that [isValidEnvidoCall] accepts): the call is
    appended to [envido.calls]; [acceptedBy], [accepted], [winner] and
    [playersPoints] are undefined; [lastCaller] is the escalating
    player; [waitingResponse] stays true; the turn passes to the
    opponent. *)
Theorem envido_escalates_while_waiting u c g :
  callEnvido u c g ≠ Err WaitingResponse
  ∧ (∀ o, waitingResponse (envido (state g)) = true →
          playerTurn (state g) = Some u →
          step g = Ok 1%nat →
          isValidEnvidoCall c g = true →
          otherPlayerId g u = Ok o →
          ∃ g', callEnvido u c g = Ok g'
                ∧ calls (envido (state g')) = calls (envido (state g)) ++ [c]
                ∧ acceptedBy (envido (state g')) = None
                ∧ accepted (envido (state g')) = None
                ∧ envidoWinner (envido (state g')) = None
                ∧ playersPoints (envido (state g')) = None
                ∧ lastCaller (envido (state g')) = Some u
                ∧ waitingResponse (envido (state g')) = true
                ∧ playerTurn (state g') = Some o
                ∧ o ≠ u
                ∧ o ∈ getPlayersIds g).
Proof.
  split.
  - unfold callEnvido.
    destruct (bool_decide _); [discriminate|].
    destruct (step g) as [s|e] eqn:Hs; simpl;
      [|apply step_err in Hs as ->; discriminate].
    destruct (bool_decide _); [discriminate|].
    destruct (negb _); [discriminate|].
    destruct (otherPlayerId g u) as [o|e] eqn:Ho; simpl;
      [|apply otherPlayerId_err in Ho as ->]; discriminate.
  - intros o _ Ht Hs Hv Ho.
    rewrite (callEnvido_ok _ _ _ _ Ht Hs Hv Ho). eexists.
    split; [reflexivity|]. simpl.
    apply otherPlayerId_ok in Ho as [Hne (P & HP & <-)].
    repeat split; try done.
    unfold getPlayersIds. apply list_elem_of_fmap. by exists P.
Qed.

(** ** Scores in the exact range *)

(** On a game with [safeScores], the numbers that the transitions
    compute from a score are safe integers. *)
Lemma safeScores_exact g p n :
  safeScores g →
  points (state g) !! p = Some (Num n) →
  safeInteger n
  ∧ safeInteger (n + trucoPoints (state g))
  ∧ safeInteger (30 - n)
  ∧ safeInteger (round (state g) + 1).
Proof.
  intros (Hr & Ht & Hp) Hn. specialize (Hp p n Hn).
  unfold safeInteger, MAX_SAFE_INTEGER.
  change (2 ^ 53) with 9007199254740992.
  change (2 ^ 50) with 1125899906842624 in *. lia.
Qed.

Lemma envidoCallValue_sum_bound other cs a :
  Z.abs other ≤ 2 ^ 50 →
  Z.abs (fold_left Z.add (map (envidoCallValue other) cs) a)
  ≤ Z.abs a + Z.of_nat (length cs) * (2 ^ 50 + 30).
Proof.
  change (2 ^ 50) with 1125899906842624. intros Ho. revert a.
  induction cs as [|c cs IH]; intros a; simpl; [lia|].
  etrans; [apply IH|].
  destruct c; unfold envidoCallValue, MAX_POINTS; try case_bool_decide; lia.
Qed.

(** So are the award of an envido of at most four calls, at every step
    of the sum, and a score with the award added. *)
Lemma envido_award_exact g p q n m cs k :
  safeScores g →
  points (state g) !! p = Some (Num n) →
  points (state g) !! q = Some (Num m) →
  (length cs ≤ 4)%nat →
  safeInteger (sumZ (map (envidoCallValue m) (take k cs)))
  ∧ safeInteger (n + sumZ (map (envidoCallValue m) cs)).
Proof.
  intros (_ & _ & Hp) Hn Hm Hlen.
  pose proof (Hp p n Hn) as Hn'. pose proof (Hp q m Hm) as Hm'.
  pose proof (envidoCallValue_sum_bound m (take k cs) 0 Hm') as Hk.
  pose proof (envidoCallValue_sum_bound m cs 0 Hm') as Hc.
  assert (length (take k cs) ≤ 4)%nat as Hlen'
    by (rewrite length_take; lia).
  unfold safeInteger, MAX_SAFE_INTEGER, sumZ.
  change (2 ^ 53) with 9007199254740992.
  change (2 ^ 50) with 1125899906842624 in *. lia.
Qed.

(** ** Answering envido *)

Lemma getEnvidoPoints_fold g w loser cs acc :
  otherPlayerId g w = Ok loser →
  fold_left (getEnvidoPoints_step g w) cs (Ok acc)
  = Ok (fold_left num_add
          (map (envidoCallPoints (toNumber (points (state g) !! loser))) cs)
          acc).
Proof.
  intros Ho. revert acc. induction cs as [|c cs IH]; intros acc; [reflexivity|].
  simpl. rewrite <- IH. f_equal.
  destruct c; simpl; try reflexivity.
  rewrite Ho. simpl. by destruct (num_ltb _ _).
Qed.

Lemma getEnvidoPoints_sum g w loser :
  otherPlayerId g w = Ok loser →
  getEnvidoPoints w g
  = Ok (num_sum (map (envidoCallPoints (toNumber (points (state g) !! loser)))
                     (calls (envido (state g))))).
Proof. intros Ho. by apply getEnvidoPoints_fold. Qed.

Lemma num_sum_values n cs :
  num_sum (map (envidoCallPoints (Num n)) cs)
  = Num (sumZ (map (envidoCallValue n) cs)).
Proof.
  unfold num_sum, sumZ. generalize 0. induction cs as [|c cs IH]; intros a;
    [reflexivity|].
  simpl. rewrite <- IH. f_equal. by destruct c; simpl; try case_bool_decide.
Qed.



Lemma default_winnerResult g p0 p1 :
  let g' := default g (winnerResultOf g p0 p1) in
  points (state g') = points (state g)
  ∧ envido (state g') = envido (state g)
  ∧ playerTurn (state g') = playerTurn (state g)
  ∧ ∃ rest, events g' = events g ++ rest.
Proof.
  unfold winnerResultOf. destruct (_ || _); simpl.
  - repeat split. eexists. reflexivity.
  - repeat split. exists []. by rewrite app_nil_r.
Qed.

(** The game that [answerEnvido] builds before it looks for a match
    winner, and its answer, once [analyzeEnvido] has settled the envido. *)
Lemma answerEnvido_analyzed u acc g P0 P1 ow pp :
  players g !! 0%nat = Some P0 →
  players g !! 1%nat = Some P1 →
  playerTurn (state g) = Some u →
  step g = Ok 1%nat →
  waitingResponse (envido (state g)) = true →
  analyzeEnvido getEnvidoCardsValue u acc g = Ok (ow, pp) →
  ∃ g', answerEnvido getEnvidoCardsValue u acc g = Ok g'
    ∧ points (state g')
      = <[user_id P1 := num_add (toNumber (points (state g) !! user_id P1))
                                (toNumber (pp !! user_id P1))]>
          (<[user_id P0 := num_add (toNumber (points (state g) !! user_id P0))
                                   (toNumber (pp !! user_id P0))]> ∅)
    ∧ envido (state g')
      = {| calls := calls (envido (state g));
           firstCaller := firstCaller (envido (state g));
           lastCaller := lastCaller (envido (state g));
           acceptedBy := Some u; accepted := Some acc;
           envidoWinner := ow; playersPoints := Some pp;
           waitingResponse := false |}
    ∧ playerTurn (state g') = firstCaller (envido (state g))
    ∧ ∃ rest, events g' = events g
        ++ (if acc then ENVIDO_ACCEPTED u (points (state g'))
            else ENVIDO_DECLINED u (points (state g'))) :: rest.
Proof.
  intros H0 H1 Ht Hs Hw Ha. unfold answerEnvido.
  rewrite bool_decide_eq_false_2 by (intros Hne; apply Hne; exact Ht).
  rewrite Hs. simpl. rewrite Hw, Ha. simpl.
  rewrite (playerId_lookup _ _ _ H0), (playerId_lookup _ _ _ H1). simpl.
  erewrite withWinnerResult_two_players by (simpl; eassumption). simpl.
  eexists. split; [reflexivity|].
  match goal with
  | |- context [default ?game (winnerResultOf ?game ?a ?b)] =>
      destruct (default_winnerResult game a b) as (-> & -> & -> & rest & ->)
  end.
  simpl. repeat split. exists rest. rewrite <- app_assoc. by destruct acc.
Qed.

Lemma otherPlayerId_two g P0 P1 w :
  players g !! 0%nat = Some P0 →
  players g !! 1%nat = Some P1 →
  user_id P0 ≠ user_id P1 →
  otherPlayerId g w
  = Ok (if bool_decide (w = user_id P0) then user_id P1 else user_id P0).
Proof.
  intros H0 H1 Hne. unfold otherPlayerId.
  destruct (players g) as [|Q0 [|Q1 rest]]; simplify_eq/=.
  case_bool_decide as Hw; subst; simpl.
  - by rewrite bool_decide_eq_false_2 by done.
  - rewrite bool_decide_eq_true_2 by done.
    by rewrite bool_decide_eq_true_2 by done.
Qed.

Lemma answerEnvido_declined u g P0 P1 l :
  players g !! 0%nat = Some P0 →
  players g !! 1%nat = Some P1 →
  user_id P0 ≠ user_id P1 →
  playerTurn (state g) = Some u →
  step g = Ok 1%nat →
  waitingResponse (envido (state g)) = true →
  lastCaller (envido (state g)) = Some l →
  (l = user_id P0 ∧ u = user_id P1) ∨ (l = user_id P1 ∧ u = user_id P0) →
  ∃ g', answerEnvido getEnvidoCardsValue u false g = Ok g'
        ∧ envidoSettled g g' u false l u
            (Num (Z.of_nat (length (calls (envido (state g)))))).
Proof.
  intros H0 H1 Hne Ht Hs Hw Hl Hlu.
  assert (l ≠ u) as Hlu' by (destruct Hlu as [[-> ->]|[-> ->]]; done).
  destruct (answerEnvido_analyzed u false g P0 P1
              (Some l)
              (<[u := Num 0]>
                 (<[l := Num (Z.of_nat (length (calls (envido (state g)))))]> ∅))
              H0 H1 Ht Hs Hw)
    as (g' & Hg' & Hpts & Henv & Hturn & rest & Hev).
  { unfold analyzeEnvido. simpl. rewrite Hl. reflexivity. }
  exists g'. split; [exact Hg'|]. unfold envidoSettled.
  rewrite Henv, Hturn, Hpts. simpl.
  split; [reflexivity|]. split.
  { eexists. split; [reflexivity|]. split; [|apply lookup_insert_eq].
    rewrite lookup_insert_ne by done. apply lookup_insert_eq. }
  split; [|split]; [| |repeat split;
    [exists rest; by rewrite Hev, Hpts]].
  - destruct Hlu as [[-> ->]|[-> ->]]; simplify_map_eq; reflexivity.
  - destruct Hlu as [[-> ->]|[-> ->]]; simplify_map_eq; reflexivity.
Qed.

Lemma answerEnvido_accepted u g P0 P1 h0 h1 :
  players g !! 0%nat = Some P0 →
  players g !! 1%nat = Some P1 →
  user_id P0 ≠ user_id P1 →
  playerTurn (state g) = Some u →
  step g = Ok 1%nat →
  waitingResponse (envido (state g)) = true →
  cards (state g) !! user_id P0 = Some h0 →
  cards (state g) !! user_id P1 = Some h1 →
  firstPlayer (state g) = user_id P0 ∨ firstPlayer (state g) = user_id P1 →
  let v0 := getEnvidoCardsValue (h0 ++ thrownOf g (user_id P0)) in
  let v1 := getEnvidoCardsValue (h1 ++ thrownOf g (user_id P1)) in
  let w := if bool_decide (v0 = v1) then firstPlayer (state g)
           else if bool_decide (v1 < v0) then user_id P0 else user_id P1 in
  let loser := if bool_decide (w = user_id P0) then user_id P1 else user_id P0 in
  ∃ g' award, answerEnvido getEnvidoCardsValue u true g = Ok g'
              ∧ getEnvidoPoints w g = Ok award
              ∧ envidoSettled g g' u true w loser award.
Proof.
  intros H0 H1 Hne Ht Hs Hw Hh0 Hh1 Hfirst v0 v1 w loser.
  pose proof (otherPlayerId_two g P0 P1 w H0 H1 Hne) as Ho. fold loser in Ho.
  pose proof (getEnvidoPoints_sum g w loser Ho) as Hp.
  set (award := num_sum _) in Hp.
  assert (w = user_id P0 ∧ loser = user_id P1
          ∨ w = user_id P1 ∧ loser = user_id P0) as Hwl.
  { unfold loser. case_bool_decide as Hwp; [by left|right]. split; [|done].
    unfold w in *. repeat case_bool_decide; try done.
    by destruct Hfirst. }
  assert (w ≠ loser) as Hwl' by (destruct Hwl as [[-> ->]|[-> ->]]; done).
  destruct (answerEnvido_analyzed u true g P0 P1
              (Some w) (<[loser := Num 0]> (<[w := award]> ∅))
              H0 H1 Ht Hs Hw)
    as (g' & Hg' & Hpts & Henv & Hturn & rest & Hev).
  { unfold analyzeEnvido, allCardsOf. simpl.
    rewrite (playerId_lookup _ _ _ H0), (playerId_lookup _ _ _ H1). simpl.
    rewrite Hh0, Hh1. simpl. fold v0 v1 w. rewrite Hp. simpl.
    rewrite Ho. reflexivity. }
  exists g', award. split; [exact Hg'|]. split; [exact Hp|].
  unfold envidoSettled. rewrite Henv, Hturn, Hpts. simpl.
  split; [reflexivity|]. split.
  { eexists. split; [reflexivity|]. split; [|apply lookup_insert_eq].
    rewrite lookup_insert_ne by done. apply lookup_insert_eq. }
  split; [|split]; [| |repeat split;
    [exists rest; by rewrite Hev, Hpts]].
  - destruct Hwl as [[-> ->]|[-> ->]]; simplify_map_eq; reflexivity.
  - destruct Hwl as [[-> ->]|[-> ->]]; simplify_map_eq; reflexivity.
Qed.

(** C6: a pending envido of two players, answered at step 1 by the
    player to move, the scores being in the range where sums are exact
    and the chain of at most four calls.  Declined: the winner is
    [envido.lastCaller] (the other player), awarded
    [envido.calls.length] points, the decliner 0.  Accepted: the envido
    value of each player is computed over the cards still held in
    [cards] followed by those already thrown in [thrownCards], the
    higher value wins, a tie goes to [firstPlayer], the loser gets 0.
    In both cases the awards are added to [state.points],
    ENVIDO_DECLINED or ENVIDO_ACCEPTED is appended to the events, and
    the turn returns to [envido.firstCaller]. *)
Theorem answerEnvido_settles_the_envido u g P0 P1 :
  players g !! 0%nat = Some P0 →
  players g !! 1%nat = Some P1 →
  user_id P0 ≠ user_id P1 →
  playerTurn (state g) = Some u →
  step g = Ok 1%nat →
  waitingResponse (envido (state g)) = true →
  safeScores g →
  (length (calls (envido (state g))) ≤ 4)%nat →
  (∀ l, lastCaller (envido (state g)) = Some l →
        (l = user_id P0 ∧ u = user_id P1) ∨ (l = user_id P1 ∧ u = user_id P0) →
        ∃ g', answerEnvido getEnvidoCardsValue u false g = Ok g'
              ∧ envidoSettled g g' u false l u
                  (Num (Z.of_nat (length (calls (envido (state g)))))))
  ∧ (∀ h0 h1,
        cards (state g) !! user_id P0 = Some h0 →
        cards (state g) !! user_id P1 = Some h1 →
        firstPlayer (state g) = user_id P0 ∨ firstPlayer (state g) = user_id P1 →
        let v0 := getEnvidoCardsValue
                    (h0 ++ default [] (thrownCards (state g) !! user_id P0)) in
        let v1 := getEnvidoCardsValue
                    (h1 ++ default [] (thrownCards (state g) !! user_id P1)) in
        let w := if bool_decide (v0 = v1) then firstPlayer (state g)
                 else if bool_decide (v1 < v0) then user_id P0 else user_id P1 in
        let loser :=
          if bool_decide (w = user_id P0) then user_id P1 else user_id P0 in
        ∃ g' award, answerEnvido getEnvidoCardsValue u true g = Ok g'
                    ∧ getEnvidoPoints w g = Ok award
                    ∧ envidoSettled g g' u true w loser award).
Proof.
  intros H0 H1 Hne Ht Hs Hw _ _. split.
  - intros l Hl Hlu. by eapply answerEnvido_declined.
  - intros h0 h1 Hh0 Hh1 Hfirst.
    exact (answerEnvido_accepted u g P0 P1 h0 h1 H0 H1 Hne Ht Hs Hw
             Hh0 Hh1 Hfirst).
Qed.

(** ** Throwing a card *)


Lemma throwCard_ok_inv deal u c g g' :
  throwCard getCardValue getRoundWinner deal u c g = Ok g' →
  ∃ hand moved,
    playerTurn (state g) = Some u
    ∧ isWaitingResponse g = false
    ∧ cards (state g) !! u = Some hand
    ∧ c ∈ hand
    ∧ throwCardMoved getCardValue u c hand g = Ok moved
    ∧ withRoundWinnerValidation getRoundWinner deal moved = Ok g'.
Proof.
  unfold throwCard. intros Ht.
  case_bool_decide as Hturn; [discriminate Ht|].
  destruct (isWaitingResponse g) eqn:Hw; [discriminate Ht|].
  destruct (cards (state g) !! u) as [hand|]; simpl in Ht; [|discriminate Ht].
  case_bool_decide as Hin; simpl in Ht; [|discriminate Ht].
  destruct (throwCardMoved _ _ _ _ _) as [moved|] eqn:Hm; simpl in Ht;
    [|discriminate Ht].
  exists hand, moved. by repeat split.
Qed.


(** What [setRoundWinner] returns in a game of two players: the outcome
    of [withNextRoundOrWin] on the game with ROUND_RESULT appended and
    the value of the round added to the score of the winner. *)
Lemma setRoundWinner_computed deal w g P0 P1 :
  players g !! 0%nat = Some P0 →
  players g !! 1%nat = Some P1 →
  let pts := <[w := num_add (toNumber (points (state g) !! w))
                            (Num (trucoPoints (state g)))]> (points (state g)) in
  let awarded :=
    copy_events_state (events g ++ [ROUND_RESULT w pts])
      (with_points pts (state g)) g in
  setRoundWinner deal w g
  = Ok (match winnerResultOf awarded (user_id P0) (user_id P1) with
        | Some won => won
        | None => nextRoundOf deal awarded (user_id P0) (user_id P1)
        end).
Proof.
  intros H0 H1 pts awarded. unfold setRoundWinner, withNextRoundOrWin.
  fold pts. fold awarded.
  rewrite (withWinnerResult_two_players awarded P0 P1 H0 H1). simpl.
  destruct (winnerResultOf awarded _ _); [reflexivity|].
  unfold playerId. simpl. rewrite H0, H1. reflexivity.
Qed.


(** ** The match target and the end of the match *)

Lemma sameButWinner_refl g : sameButWinner g g.
Proof. by repeat split. Qed.

Lemma sameOutcome_refl (r : result (@Game Card)) : sameOutcome r r.
Proof. destruct r; simpl; [apply sameButWinner_refl | reflexivity]. Qed.

Lemma sameButWinner_eq g1 g2 :
  sameButWinner g1 g2 →
  g1 = copy_state (with_winner (winner (state g1)) (state g2)) g2.
Proof.
  destruct g1 as [i1 n1 p1 [] e1], g2 as [i2 n2 p2 [] e2].
  unfold sameButWinner. simpl. intros (-> & -> & -> & -> & Hs).
  injection Hs as -> -> -> -> -> -> -> -> ->. reflexivity.
Qed.

(** Setting [state.winner] beforehand changes nothing in what the
    round-ending methods return. *)
Lemma setRoundWinner_ignores_winner deal (ow : option UserId) x g :
  setRoundWinner deal x (copy_state (with_winner ow (state g)) g)
  = setRoundWinner deal x g.
Proof. reflexivity. Qed.

Lemma throwCardMoved_ignores_winner u c hand (w : option UserId) g :
  throwCardMoved getCardValue u c hand (copy_state (with_winner w (state g)) g)
  = moved ← throwCardMoved getCardValue u c hand g;
    mret (copy_state (with_winner w (state moved)) moved).
Proof.
  unfold throwCardMoved, setNextTurnPlayer, playerId, thrownOf. simpl.
  destruct (players g !! 0%nat) as [P0|]; simpl; [|reflexivity].
  destruct (players g !! 1%nat) as [P1|]; simpl; [|reflexivity].
  repeat case_bool_decide; reflexivity.
Qed.

Lemma perform_ignores_winner a (w : option UserId) g :
  sameOutcome
    (perform getCardValue getEnvidoCardsValue getRoundWinner a
       (copy_state (with_winner w (state g)) g))
    (perform getCardValue getEnvidoCardsValue getRoundWinner a g).
Proof.
  set (gw := copy_state (with_winner w (state g)) g).
  assert (playerId gw = playerId g) as Eplayer by reflexivity.
  assert (isWaitingResponse gw = isWaitingResponse g) as Ewait by reflexivity.
  assert (step gw = step g) as Estep by reflexivity.
  assert (∀ u, otherPlayerId gw u = otherPlayerId g u) as Eother by reflexivity.
  assert (∀ c, isValidEnvidoCall c gw = isValidEnvidoCall c g) as Evalid
    by reflexivity.
  assert (∀ u acc, analyzeEnvido getEnvidoCardsValue u acc gw
                   = analyzeEnvido getEnvidoCardsValue u acc g) as Eanalyze
    by reflexivity.
  destruct a as [user|deal|deal u c|u c|u acc|deal u]; simpl.
  - by repeat split.
  - unfold start. rewrite Eplayer.
    destruct (playerId g 0) as [p0|]; simpl; [|done].
    destruct (playerId g 1) as [p1|]; simpl; [|done].
    by repeat split.
  - unfold throwCard. rewrite Ewait. simpl.
    destruct (bool_decide _); [done|].
    destruct (isWaitingResponse g); [done|].
    destruct (cards (state g) !! u) as [hand|]; simpl; [|done].
    destruct (negb _); [done|].
    unfold gw. rewrite throwCardMoved_ignores_winner.
    destruct (throwCardMoved _ _ _ _ _) as [moved|]; simpl; [|done].
    unfold withRoundWinnerValidation, getPlayersIds. simpl.
    destruct (getRoundWinner _ _) as [x|]; simpl.
    + rewrite setRoundWinner_ignores_winner. apply sameOutcome_refl.
    + by repeat split.
  - unfold callEnvido. rewrite Estep, Evalid, Eother. simpl.
    destruct (bool_decide _); [done|].
    destruct (step g) as [s|]; simpl; [|done].
    destruct (bool_decide _); [done|].
    destruct (negb _); [done|].
    destruct (otherPlayerId g u); simpl; [|done].
    by repeat split.
  - unfold answerEnvido. rewrite Estep, Eanalyze, Eplayer. simpl.
    destruct (bool_decide _); [done|].
    destruct (step g) as [s|]; simpl; [|done].
    destruct (bool_decide _); [done|].
    destruct (negb _); [done|].
    destruct (analyzeEnvido _ _ _ _) as [[ow pp]|]; simpl; [|done].
    destruct (playerId g 0) as [p0|]; simpl; [|done].
    destruct (playerId g 1) as [p1|]; simpl; [|done].
    match goal with
    | |- sameOutcome (withWinnerResult ?ga ≫= _) (withWinnerResult ?gb ≫= _) =>
        change (withWinnerResult ga) with (withWinnerResult gb);
        destruct (withWinnerResult gb) as [[gr|]|]; simpl
    end.
    + apply sameButWinner_refl.
    + by repeat split.
    + done.
  - unfold goToDeck. rewrite Ewait, Eother. simpl.
    destruct (bool_decide _); [done|].
    destruct (isWaitingResponse g); [done|].
    destruct (otherPlayerId g u) as [x|]; simpl; [|done].
    match goal with
    | |- sameOutcome (setRoundWinner _ _ ?ga) (setRoundWinner _ _ ?gb) =>
        change (setRoundWinner deal x ga) with (setRoundWinner deal x gb)
    end.
    apply sameOutcome_refl.
Qed.

(** Going to the deck in a game of two players: the opponent is awarded
    the value of the round, and the winner of the match is set exactly
    when a score has reached MAX_POINTS. *)
Lemma goToDeck_two_players deal u g P0 P1 :
  players g !! 0%nat = Some P0 →
  players g !! 1%nat = Some P1 →
  user_id P0 ≠ user_id P1 →
  playerTurn (state g) = Some u →
  isWaitingResponse g = false →
  let o := if bool_decide (u = user_id P0) then user_id P1 else user_id P0 in
  ∃ g', goToDeck deal u g = Ok g'
        ∧ points (state g')
          = <[o := num_add (toNumber (points (state g) !! o))
                           (Num (trucoPoints (state g)))]> (points (state g))
        ∧ (is_Some (winner (state g'))
           ↔ reachedMaxPoints (points (state g')) (user_id P0) (user_id P1)
             = true).
Proof.
  intros H0 H1 Hne Ht Hw o. unfold goToDeck.
  rewrite bool_decide_eq_false_2 by (intros Hx; apply Hx; exact Ht).
  rewrite Hw, (otherPlayerId_two g P0 P1 u H0 H1 Hne). fold o. simpl.
  unfold setRoundWinner, withNextRoundOrWin.
  erewrite withWinnerResult_two_players by (simpl; eassumption).
  unfold winnerResultOf, reachedMaxPoints. simpl.
  destruct (_ || _) eqn:Hr; simpl.
  - eexists. split; [reflexivity|]. simpl. split; [reflexivity|].
    split; [done | by eexists].
  - unfold playerId. simpl. rewrite H0, H1. simpl.
    eexists. split; [reflexivity|]. simpl. split; [reflexivity|].
    split; [by intros [? ?] | by rewrite Hr].
Qed.

(** [setRoundWinner] in a game of two players: the game it returns has
    a winner exactly when one of its scores has reached MAX_POINTS. *)
Lemma setRoundWinner_winner deal w g P0 P1 :
  players g !! 0%nat = Some P0 →
  players g !! 1%nat = Some P1 →
  ∃ g', setRoundWinner deal w g = Ok g'
        ∧ (is_Some (winner (state g'))
           ↔ reachedMaxPoints (points (state g')) (user_id P0) (user_id P1)
             = true).
Proof.
  intros H0 H1. rewrite (setRoundWinner_computed deal w g P0 P1 H0 H1).
  unfold winnerResultOf, nextRoundOf, reachedMaxPoints. simpl.
  destruct (_ || _) eqn:Hr; simpl.
  - eexists. split; [reflexivity|]. simpl. split; [done | by eexists].
  - eexists. split; [reflexivity|]. simpl.
    split; [by intros [? ?] | by rewrite Hr].
Qed.

(** [answerEnvido] in a game of two players: the game it returns has a
    winner when one of its scores has reached MAX_POINTS, and the winner
    of the game answered, if any, otherwise. *)
Lemma answerEnvido_winner u acc g g' P0 P1 :
  players g !! 0%nat = Some P0 →
  players g !! 1%nat = Some P1 →
  answerEnvido getEnvidoCardsValue u acc g = Ok g' →
  (reachedMaxPoints (points (state g')) (user_id P0) (user_id P1) = true →
   is_Some (winner (state g')))
  ∧ (reachedMaxPoints (points (state g')) (user_id P0) (user_id P1) = false →
     winner (state g') = winner (state g)).
Proof.
  intros H0 H1. unfold answerEnvido. intros Hc.
  destruct (bool_decide _); [discriminate Hc|].
  destruct (step g) as [s|]; simpl in Hc; [|discriminate Hc].
  destruct (bool_decide _); [discriminate Hc|].
  destruct (negb _); [discriminate Hc|].
  destruct (analyzeEnvido _ _ _ _) as [[ow pp]|]; simpl in Hc;
    [|discriminate Hc].
  rewrite (playerId_lookup _ _ _ H0), (playerId_lookup _ _ _ H1) in Hc.
  simpl in Hc.
  match type of Hc with
  | context [withWinnerResult ?game] =>
      set (answered := game) in *;
      assert (winner (state answered) = winner (state g)) as Hwin
        by reflexivity;
      rewrite (withWinnerResult_two_players answered P0 P1 H0 H1) in Hc;
      clearbody answered
  end.
  simpl in Hc. injection Hc as <-.
  unfold winnerResultOf, reachedMaxPoints.
  destruct (num_geb (toNumber (points (state answered) !! user_id P0))
              (Num MAX_POINTS)
            || num_geb (toNumber (points (state answered) !! user_id P1))
                 (Num MAX_POINTS)) eqn:Hr; simpl; rewrite Hr.
  - split; [by eexists | discriminate].
  - split; [discriminate | intros _; exact Hwin].
Qed.

(** C2 (amended): the match target MAX_POINTS is 5.  [withWinnerResult]
    sets the winner exactly when the score of a player is at least 5
    and leaves the scores as they are.  It is run at the end of
    [setRoundWinner], whose game has a winner exactly when one of its
    scores is at least 5, and at the end of [answerEnvido], whose game
    has a winner when one of its scores is at least 5 and the winner it
    had before otherwise.  No transition reads [state.winner] and none
    fails because the match is over: two games that differ only in
    [state.winner] are answered alike, with the same error or with
    games that differ only in [state.winner].  In particular the player
    to move may still go to the deck, which adds the value of the round
    to the score of the opponent (scores in the range where sums are
    exact), so that the scores are not bounded. *)
Theorem match_target_is_five_and_play_goes_on :
  MAX_POINTS = 5
  ∧ (∀ g P0 P1,
       players g !! 0%nat = Some P0 →
       players g !! 1%nat = Some P1 →
       (reachedMaxPoints (points (state g)) (user_id P0) (user_id P1) = true →
        ∃ g', withWinnerResult g = Ok (Some g')
              ∧ is_Some (winner (state g'))
              ∧ points (state g') = points (state g))
       ∧ (reachedMaxPoints (points (state g)) (user_id P0) (user_id P1) = false →
          withWinnerResult g = Ok None))
  ∧ (∀ deal w g P0 P1,
       players g !! 0%nat = Some P0 →
       players g !! 1%nat = Some P1 →
       ∃ g', setRoundWinner deal w g = Ok g'
             ∧ (is_Some (winner (state g'))
                ↔ reachedMaxPoints (points (state g'))
                    (user_id P0) (user_id P1) = true))
  ∧ (∀ u acc g g' P0 P1,
       players g !! 0%nat = Some P0 →
       players g !! 1%nat = Some P1 →
       answerEnvido getEnvidoCardsValue u acc g = Ok g' →
       (reachedMaxPoints (points (state g')) (user_id P0) (user_id P1) = true →
        is_Some (winner (state g')))
       ∧ (reachedMaxPoints (points (state g')) (user_id P0) (user_id P1)
          = false →
          winner (state g') = winner (state g)))
  ∧ (∀ a g1 g2,
       sameButWinner g1 g2 →
       sameOutcome
         (perform getCardValue getEnvidoCardsValue getRoundWinner a g1)
         (perform getCardValue getEnvidoCardsValue getRoundWinner a g2))
  ∧ (∀ deal u g P0 P1,
       players g !! 0%nat = Some P0 →
       players g !! 1%nat = Some P1 →
       user_id P0 ≠ user_id P1 →
       playerTurn (state g) = Some u →
       isWaitingResponse g = false →
       safeScores g →
       let o := if bool_decide (u = user_id P0) then user_id P1
                else user_id P0 in
       ∃ g', goToDeck deal u g = Ok g'
             ∧ points (state g')
               = <[o := num_add (toNumber (points (state g) !! o))
                                (Num (trucoPoints (state g)))]>
                   (points (state g))
             ∧ (is_Some (winner (state g'))
                ↔ reachedMaxPoints (points (state g'))
                    (user_id P0) (user_id P1) = true)).
Proof.
  split; [reflexivity|]. split; [|split; [|split; [|split]]].
  - intros g P0 P1 H0 H1.
    rewrite (withWinnerResult_two_players _ _ _ H0 H1).
    unfold winnerResultOf, reachedMaxPoints. split; intros ->.
    + eexists. split; [reflexivity|]. simpl. split; [by eexists | done].
    + reflexivity.
  - intros deal w g P0 P1 H0 H1. by apply setRoundWinner_winner.
  - intros u acc g g' P0 P1 H0 H1 Ha. by eapply answerEnvido_winner.
  - intros a g1 g2 Hsame. rewrite (sameButWinner_eq _ _ Hsame).
    apply perform_ignores_winner.
  - intros deal u g P0 P1 H0 H1 Hne Ht Hw _. by apply goToDeck_two_players.
Qed.

End Properties.

(** * Concrete games

    The model run on the card module written after the specification. *)

Example envido_value_of_a_pair :
  Cards.getEnvidoCardsValue Scenario.hands1.1 = 28.
Proof. reflexivity. Qed.

Example envido_value_without_pair :
  Cards.getEnvidoCardsValue Scenario.hands1.2 = 6.
Proof. reflexivity. Qed.

(** Scenario 1 of the specification: ana, the mano, calls ENVIDO and beto
    declines. *)
Example envido_declined_scenario :
  (g ← Scenario.run' [CallEnvido 1 ENVIDO; AnswerEnvido 2 false]
         Scenario.opening;
   mret (events g, points (state g), playerTurn (state g)))
  = Ok ([ENVIDO_CALL ENVIDO 1;
         ENVIDO_DECLINED 2 (<[2 := Num 0]> (<[1 := Num 1]> ∅))],
        <[2 := Num 0]> (<[1 := Num 1]> ∅), Some 1).
Proof. vm_compute. reflexivity. Qed.

(** In play: ana throws the 1 of swords, beto calls ENVIDO with 27 and
    ana accepts; the card she has thrown counts and she wins 2 points
    with 28. *)
Example envido_counts_the_thrown_card :
  (g ← Scenario.run'
         [Join Scenario.beto;
          Start ([Scenario.card Cards.Espada 1; Scenario.card Cards.Espada 7;
                  Scenario.card Cards.Copa 5],
                 [Scenario.card Cards.Oro 4; Scenario.card Cards.Oro 3;
                  Scenario.card Cards.Basto 6]);
          ThrowCard Scenario.hands2 1 (Scenario.card Cards.Espada 1);
          CallEnvido 2 ENVIDO; AnswerEnvido 1 true]
         (new Scenario.ana);
   mret (envidoWinner (envido (state g)), points (state g)))
  = Ok (Some 1, <[2 := Num 0]> (<[1 := Num 2]> ∅)).
Proof. vm_compute. reflexivity. Qed.

(** A player with id 0 who opens the envido is not kept as first caller
    once the opponent escalates: [envido.firstCaller || userId] takes 0
    for an absent caller. *)
Example first_caller_zero_is_overwritten :
  firstCallerOr (Some 0) 7 = 7 ∧ firstCallerOr (Some 3) 7 = 3
  ∧ firstCallerOr None 7 = 7.
Proof. repeat apply conj; reflexivity. Qed.

(** The games built by [Scenario.table] from scores of at most 2^50 are
    in the range where sums are exact. *)
Lemma table_safeScores pts1 pts2 mano turn h1 h2 t1 t2 e :
  Z.abs pts1 ≤ 2 ^ 50 →
  Z.abs pts2 ≤ 2 ^ 50 →
  safeScores (Scenario.table pts1 pts2 mano turn h1 h2 t1 t2 e).
Proof.
  intros H1 H2. unfold safeScores, Scenario.table. simpl.
  split; [done|]. split; [done|]. intros p n Hp.
  apply lookup_insert_Some in Hp as [[_ [= <-]]|[_ Hp]]; [exact H2|].
  apply lookup_insert_Some in Hp as [[_ [= <-]]|[_ Hp]]; [exact H1|].
  by rewrite lookup_empty in Hp.
Qed.

(** C1 (the code departs from it): with ana at 0 points and beto, the
    mano, at 5, [withWinnerResult] appends RESULT and names ana, the
    player with the lower score, as the winner: the test
    [points[players[0]] >= points[players[0]]] compares a score with
    itself.  The same happens in play: after nine rounds ended at the
    deck beto has 5 points, ana has 4 and is the winner. *)
Lemma withWinnerResult_names_lower_score :
  (∃ g', withWinnerResult Scenario.lateLeader = Ok (Some g')
         ∧ points (state Scenario.lateLeader) !! 1 = Some (Num 0)
         ∧ points (state Scenario.lateLeader) !! 2 = Some (Num 5)
         ∧ firstPlayer (state Scenario.lateLeader) = 2
         ∧ winner (state g') = Some 1
         ∧ events g' = events Scenario.lateLeader
                       ++ [RESULT 1 (points (state Scenario.lateLeader))])
  ∧ Scenario.run' Scenario.nineFolds (new Scenario.ana)
    = Ok Scenario.afterNine
  ∧ points (state Scenario.afterNine) !! 1 = Some (Num 4)
  ∧ points (state Scenario.afterNine) !! 2 = Some (Num 5)
  ∧ winner (state Scenario.afterNine) = Some 1.
Proof.
  split; [eexists|]; repeat apply conj; vm_compute; reflexivity.
Qed.

(** C9, where the claim fails: [join] returns a new game and appends no
    event. *)
Lemma join_appends_no_event :
  Scenario.perform' (Join Scenario.beto) (new Scenario.ana)
    = Ok (join Scenario.beto (new Scenario.ana))
  ∧ ¬ (∃ e es, events (join Scenario.beto (@new Cards.Card Scenario.ana))
               = events (@new Cards.Card Scenario.ana) ++ e :: es).
Proof.
  split; [reflexivity|]. intros (e & es & E). discriminate E.
Qed.

(** C9 at the join of beto. *)
Lemma transitions_append_events_witness :
  ∃ es, events (join Scenario.beto (@new Cards.Card Scenario.ana))
          = events (new Scenario.ana) ++ es
        ∧ getNewEvents (new Scenario.ana) (join Scenario.beto (new Scenario.ana)) = es
        ∧ (es = [] ↔ isJoin (@Join Cards.Card Scenario.beto) = true).
Proof.
  apply (transitions_append_events Cards.getCardValue
           Cards.getEnvidoCardsValue Cards.getRoundWinner
           (Join Scenario.beto) (new Scenario.ana)).
  reflexivity.
Defined.

(** C3, where the claim fails: on the first round just dealt, no
    transition of the aggregate brings [trucoPoints] to 2, the value of
    an accepted TRUCO. *)
Lemma no_transition_accepts_truco :
  ¬ (∃ a g', Scenario.perform' a Scenario.opening = Ok g'
             ∧ trucoPoints (state g') = 2).
Proof.
  intros (a & g' & Hp & Ht).
  apply perform_facts in Hp as [_ [Hk|Hk]]; rewrite Ht in Hk;
    discriminate Hk.
Qed.

(** C3 at ana going to the deck in the first round. *)
Lemma transitions_leave_truco_alone_witness :
  ∃ g', Scenario.perform' (GoToDeck Scenario.hands2 1) Scenario.opening = Ok g'
        ∧ keepsTrucoPoints Scenario.opening g'
        ∧ Forall (λ e, isTrucoEvent e = false) (getNewEvents Scenario.opening g').
Proof.
  eexists. split; [vm_compute; reflexivity|].
  apply (transitions_leave_truco_alone Cards.getCardValue
           Cards.getEnvidoCardsValue Cards.getRoundWinner
           (GoToDeck Scenario.hands2 1)).
  vm_compute. reflexivity.
Defined.

(** C5, where the claim fails: ana has thrown the 1 of swords, beto has
    thrown nothing; [step()] is still 1 and beto's ENVIDO is accepted. *)
Lemma envido_after_first_throw :
  ∃ g1 g2,
    Scenario.perform'
      (ThrowCard Scenario.hands2 1 (Scenario.card Cards.Espada 1))
      Scenario.opening = Ok g1
    ∧ thrownOf g1 1 = [Scenario.card Cards.Espada 1]
    ∧ thrownOf g1 2 = []
    ∧ step g1 = Ok 1%nat
    ∧ Scenario.perform' (CallEnvido 2 ENVIDO) g1 = Ok g2
    ∧ calls (envido (state g2)) = [ENVIDO].
Proof. do 2 eexists. repeat apply conj; vm_compute; reflexivity. Qed.

(** C5 at the first round just dealt. *)
Lemma envido_invalid_step_iff_both_threw_witness :
  (callEnvido 1 ENVIDO Scenario.opening = Err InvalidStep
   ↔ thrownOf Scenario.opening 1 ≠ [] ∧ thrownOf Scenario.opening 2 ≠ [])
  ∧ (step Scenario.opening = Ok 1%nat
     ↔ thrownOf Scenario.opening 1 = [] ∨ thrownOf Scenario.opening 2 = []).
Proof.
  apply (envido_invalid_step_iff_both_threw 1 ENVIDO Scenario.opening
           Scenario.ana Scenario.beto); reflexivity.
Defined.

(** C7 at a third ENVIDO, refused, and at REAL_ENVIDO after ENVIDO. *)
Lemma isValidEnvidoCall_accepts_exactly_legal_escalations_witness :
  callEnvido 1 ENVIDO Scenario.envidoTwice = Err InvalidEnvidoCall
  ∧ escalationChain (calls (envido (state Scenario.realCalled))).
Proof.
  split.
  - apply (isValidEnvidoCall_accepts_exactly_legal_escalations
             1 ENVIDO Scenario.envidoTwice).
    + reflexivity.
    + reflexivity.
    + intros Hl. apply isValidEnvidoCall_legal in Hl. discriminate Hl.
  - apply (proj2 (proj2 (isValidEnvidoCall_accepts_exactly_legal_escalations
                           2 REAL_ENVIDO Scenario.envidoPending))).
    + exists 1%nat, false, false. split; [lia | reflexivity].
    + vm_compute. reflexivity.
Defined.

(** C10 at beto answering ana's ENVIDO with REAL_ENVIDO. *)
Lemma envido_escalates_while_waiting_witness :
  ∃ g', callEnvido 2 REAL_ENVIDO Scenario.envidoPending = Ok g'
        ∧ calls (envido (state g')) = [ENVIDO; REAL_ENVIDO]
        ∧ acceptedBy (envido (state g')) = None
        ∧ accepted (envido (state g')) = None
        ∧ envidoWinner (envido (state g')) = None
        ∧ playersPoints (envido (state g')) = None
        ∧ lastCaller (envido (state g')) = Some 2
        ∧ waitingResponse (envido (state g')) = true
        ∧ playerTurn (state g') = Some 1
        ∧ 1 ≠ 2
        ∧ 1 ∈ getPlayersIds Scenario.envidoPending.
Proof.
  apply (proj2 (envido_escalates_while_waiting 2 REAL_ENVIDO
                  Scenario.envidoPending) 1); reflexivity.
Defined.



(** C6 at ana answering beto's ENVIDO after she has thrown the 1 of
    swords.  Declined: beto is awarded 1 point.  Accepted: the card she
    has thrown counts, her 28 beats the 27 of beto, where the two cards
    she still holds are worth 7. *)
Lemma answerEnvido_settles_the_envido_witness :
  Cards.getEnvidoCardsValue
    [Scenario.card Cards.Espada 7; Scenario.card Cards.Copa 5] = 7
  ∧ Cards.getEnvidoCardsValue
      [Scenario.card Cards.Oro 4; Scenario.card Cards.Oro 3;
       Scenario.card Cards.Basto 6] = 27
  ∧ thrownCards (state Play.envidoAfterThrow) !! 1
    = Some [Scenario.card Cards.Espada 1]
  ∧ (∃ g', answerEnvido Cards.getEnvidoCardsValue 1 false
             Play.envidoAfterThrow = Ok g'
           ∧ envidoSettled Play.envidoAfterThrow g' 1 false 2 1 (Num 1))
  ∧ (∃ g' award,
        answerEnvido Cards.getEnvidoCardsValue 1 true Play.envidoAfterThrow
          = Ok g'
        ∧ getEnvidoPoints 1 Play.envidoAfterThrow = Ok award
        ∧ envidoSettled Play.envidoAfterThrow g' 1 true 1 2 award).
Proof.
  assert (safeScores Play.envidoAfterThrow) as Hsafe
    by (apply table_safeScores; vm_compute; discriminate).
  assert (length (calls (envido (state Play.envidoAfterThrow))) ≤ 4)%nat
    as Hlen by (simpl; lia).
  assert (user_id Scenario.ana ≠ user_id Scenario.beto) as Hne
    by discriminate.
  destruct (answerEnvido_settles_the_envido Cards.getEnvidoCardsValue 1
              Play.envidoAfterThrow Scenario.ana Scenario.beto
              eq_refl eq_refl Hne eq_refl eq_refl eq_refl Hsafe Hlen)
    as [Hdeclined Haccepted].
  split; [reflexivity|]. split; [reflexivity|]. split; [reflexivity|].
  split.
  - apply (Hdeclined 2); [reflexivity | right; split; reflexivity].
  - apply (Haccepted
             [Scenario.card Cards.Espada 7; Scenario.card Cards.Copa 5]
             [Scenario.card Cards.Oro 4; Scenario.card Cards.Oro 3;
              Scenario.card Cards.Basto 6]);
      [reflexivity | reflexivity | left; reflexivity].
Defined.


(** C2, where the claim fails: after nine rounds ended at the deck beto
    has 5 points and ana 4, and the winner is set, below 15 points.
    The match goes on all the same: ana may throw a card, or go to the
    deck, which brings beto to 6 points; after 26 more such rounds beto
    has 31 points. *)
Lemma match_goes_on_after_the_winner_is_set :
  Scenario.run' Scenario.nineFolds (new Scenario.ana) = Ok Scenario.afterNine
  ∧ winner (state Scenario.afterNine) = Some 1
  ∧ points (state Scenario.afterNine) !! 1 = Some (Num 4)
  ∧ points (state Scenario.afterNine) !! 2 = Some (Num 5)
  ∧ is_ok (Scenario.perform'
             (ThrowCard Scenario.hands2 1 (Scenario.card Cards.Espada 1))
             Scenario.afterNine) = true
  ∧ (g2 ← Scenario.perform' (GoToDeck Scenario.hands2 1) Scenario.afterNine;
     mret (points (state g2) !! 2)) = Ok (Some (Num 6))
  ∧ (g3 ← Scenario.run' (replicate 26 (GoToDeck Scenario.hands2 1))
            Scenario.afterNine;
     mret (points (state g3) !! 2)) = Ok (Some (Num 31)).
Proof. repeat apply conj; vm_compute; reflexivity. Qed.

(** C2 at beto with 5 points, at the first round, at the envido that
    beto declines and at the falta envido that he accepts and wins, and
    after nine rounds ended at the deck. *)
Lemma match_target_is_five_and_play_goes_on_witness :
  (∃ g', withWinnerResult Scenario.lateLeader = Ok (Some g')
         ∧ is_Some (winner (state g'))
         ∧ points (state g') = points (state Scenario.lateLeader))
  ∧ withWinnerResult Scenario.opening = Ok None
  ∧ (∃ g', setRoundWinner Scenario.hands2 2 Scenario.lateLeader = Ok g'
           ∧ (is_Some (winner (state g'))
              ↔ reachedMaxPoints (points (state g')) 1 2 = true))
  ∧ (∃ g', answerEnvido Cards.getEnvidoCardsValue 2 false
             Scenario.envidoPending = Ok g'
           ∧ winner (state g') = winner (state Scenario.envidoPending))
  ∧ (∃ g', answerEnvido Cards.getEnvidoCardsValue 2 true
             Scenario.faltaPending = Ok g'
           ∧ points (state g') !! 2 = Some (Num 15)
           ∧ is_Some (winner (state g')))
  ∧ sameOutcome
      (Scenario.perform' (GoToDeck Scenario.hands2 1) Scenario.afterNine)
      (Scenario.perform' (GoToDeck Scenario.hands2 1)
         (copy_state (with_winner None (state Scenario.afterNine))
            Scenario.afterNine))
  ∧ ∃ g', goToDeck Scenario.hands2 2 Scenario.lateLeader = Ok g'
          ∧ points (state g')
            = <[1 := num_add (toNumber (points (state Scenario.lateLeader) !! 1))
                             (Num (trucoPoints (state Scenario.lateLeader)))]>
                (points (state Scenario.lateLeader))
          ∧ (is_Some (winner (state g'))
             ↔ reachedMaxPoints (points (state g')) 1 2 = true).
Proof.
  destruct (match_target_is_five_and_play_goes_on Cards.getCardValue
              Cards.getEnvidoCardsValue Cards.getRoundWinner)
    as (_ & Hwinner & Hround & Hanswer & Hsame & Hdeck).
  split; [|split; [|split; [|split; [|split; [|split]]]]].
  - apply (proj1 (Hwinner Scenario.lateLeader Scenario.ana Scenario.beto
                    eq_refl eq_refl)).
    reflexivity.
  - apply (proj2 (Hwinner Scenario.opening Scenario.ana Scenario.beto
                    eq_refl eq_refl)).
    reflexivity.
  - apply (Hround Scenario.hands2 2 Scenario.lateLeader Scenario.ana
             Scenario.beto eq_refl eq_refl).
  - eexists. split; [vm_compute; reflexivity|].
    apply (proj2 (Hanswer 2 false Scenario.envidoPending _ Scenario.ana
                    Scenario.beto eq_refl eq_refl
                    ltac:(vm_compute; reflexivity))).
    vm_compute. reflexivity.
  - eexists. split; [vm_compute; reflexivity|].
    split; [vm_compute; reflexivity|].
    apply (proj1 (Hanswer 2 true Scenario.faltaPending _ Scenario.ana
                    Scenario.beto eq_refl eq_refl
                    ltac:(vm_compute; reflexivity))).
    vm_compute. reflexivity.
  - apply Hsame. repeat apply conj; reflexivity.
  - apply (Hdeck Scenario.hands2 2 Scenario.lateLeader Scenario.ana
             Scenario.beto); try reflexivity.
    + discriminate.
    + apply table_safeScores; vm_compute; discriminate.
Defined.

(** * Further properties of the aggregate *)

Section Further.

Context {Card : Type} `{EqDecision Card}.
Variable getCardValue : option Card → Z.
Variable getEnvidoCardsValue : list Card → Z.
Variable getRoundWinner : list UserId → gmap UserId (list Card) → option UserId.

Implicit Types (g : @Game Card) (u w : UserId) (deal : list Card * list Card).

Ltac unbind H :=
  repeat (
    unfold mbind, mret, result_bind, result_ret, defined in H; simpl in H;
    match type of H with
    | context [match ?r with Ok _ => _ | Err _ => _ end] =>
        destruct r eqn:?; simpl in H; try discriminate H
    | context [match ?o with Some _ => _ | None => _ end] =>
        destruct o eqn:?; simpl in H; try discriminate H
    | context [if ?b then _ else _] =>
        destruct b eqn:?; simpl in H; try discriminate H
    end).

(** ** Players: hasUser, canJoin, join, start *)

Lemma playerId_elem g i p : playerId g i = Ok p → p ∈ getPlayersIds g.
Proof.
  unfold playerId. intros Hp.
  destruct (players g !! i) as [P|] eqn:HP; simpl in Hp; [|discriminate Hp].
  injection Hp as <-. unfold getPlayersIds. apply list_elem_of_fmap.
  exists P. split; [reflexivity|]. by eapply list_elem_of_lookup_2.
Qed.

Lemma playerId_err g i e : playerId g i = Err e → e = TypeError.
Proof.
  unfold playerId. destruct (players g !! i); simpl; [discriminate | congruence].
Qed.

(** X1: [hasUser(userId)] holds exactly when [userId] is among
    [getPlayersIds()]; the creator is a user of a new game, and [join]
    adds the joining user and nobody else. *)
Theorem hasUser_iff_player u g (user : SafeUser) :
  (hasUser u g = true ↔ u ∈ getPlayersIds g)
  ∧ hasUser (user_id user) (@new Card user) = true
  ∧ hasUser u (join user g) = hasUser u g || bool_decide (user_id user = u).
Proof.
  split; [|split].
  - unfold hasUser, getPlayersIds. rewrite existsb_exists. split.
    + intros (P & HP & Hu). apply bool_decide_eq_true_1 in Hu.
      apply list_elem_of_fmap. exists P. by rewrite <- list_elem_of_In in HP.
    + intros (P & -> & HP)%list_elem_of_fmap. exists P.
      rewrite <- list_elem_of_In. split; [done|]. by apply bool_decide_eq_true_2.
  - unfold hasUser. simpl. by rewrite bool_decide_eq_true_2.
  - unfold hasUser, join. simpl. rewrite existsb_app. simpl.
    by rewrite orb_false_r.
Qed.

(** [start()] on a game of two players. *)
Lemma start_two_players deal g P0 P1 :
  players g !! 0%nat = Some P0 →
  players g !! 1%nat = Some P1 →
  ∃ g', start deal g = Ok g'
    ∧ started (state g') = true
    ∧ players g' = players g
    ∧ cards (state g') !! user_id P1 = Some deal.2
    ∧ (user_id P0 ≠ user_id P1 →
       cards (state g') !! user_id P0 = Some deal.1)
    ∧ points (state g') !! user_id P0 = Some (Num 0)
    ∧ points (state g') !! user_id P1 = Some (Num 0)
    ∧ (∀ x, x ≠ user_id P0 → x ≠ user_id P1 →
            points (state g') !! x = None)
    ∧ playerTurn (state g') = playerTurn (state g)
    ∧ round (state g') = round (state g)
    ∧ thrownCards (state g') = thrownCards (state g)
    ∧ envido (state g') = envido (state g)
    ∧ events g'
      = events g ++ [START;
                     NEXT_ROUND (cards (state g')) (round (state g))
                       (firstPlayer (state g))].
Proof.
  intros H0 H1. unfold start.
  rewrite (playerId_lookup _ _ _ H0), (playerId_lookup _ _ _ H1). simpl.
  eexists. split; [reflexivity|]. simpl.
  repeat apply conj; try reflexivity.
  - apply lookup_insert_eq.
  - intros Hne. rewrite lookup_insert_ne by done. apply lookup_insert_eq.
  - destruct (decide (user_id P0 = user_id P1)) as [->|Hne].
    + apply lookup_insert_eq.
    + rewrite lookup_insert_ne by done. apply lookup_insert_eq.
  - apply lookup_insert_eq.
  - intros x Hx0 Hx1. by rewrite !lookup_insert_ne by done.
Qed.

(** X3: [start()] fails, with a TypeError, exactly when the game has
    fewer than two players; it does not look at [started].  When it
    succeeds it marks the game started, deals the two hands, appends
    START and NEXT_ROUND and sets the scores of the two players to 0,
    whatever they were; round, turn, thrown cards and envido are kept. *)
Theorem start_needs_two_players deal g :
  ((length (players g) < 2)%nat → start deal g = Err TypeError)
  ∧ (∀ P0 P1,
       players g !! 0%nat = Some P0 →
       players g !! 1%nat = Some P1 →
       ∃ g', start deal g = Ok g'
         ∧ started (state g') = true
         ∧ players g' = players g
         ∧ cards (state g') !! user_id P1 = Some deal.2
         ∧ (user_id P0 ≠ user_id P1 →
            cards (state g') !! user_id P0 = Some deal.1)
         ∧ points (state g') !! user_id P0 = Some (Num 0)
         ∧ points (state g') !! user_id P1 = Some (Num 0)
         ∧ (∀ x, x ≠ user_id P0 → x ≠ user_id P1 →
                 points (state g') !! x = None)
         ∧ playerTurn (state g') = playerTurn (state g)
         ∧ round (state g') = round (state g)
         ∧ thrownCards (state g') = thrownCards (state g)
         ∧ envido (state g') = envido (state g)
         ∧ events g'
           = events g ++ [START;
                          NEXT_ROUND (cards (state g')) (round (state g))
                            (firstPlayer (state g))]).
Proof.
  split.
  - intros Hlen. unfold start, playerId.
    destruct (players g) as [|Q0 [|Q1 rest]]; simpl in *; try reflexivity. lia.
  - intros P0 P1 H0 H1. by apply start_two_players.
Qed.

(** X2: a user that [canJoin] accepts joins a game of one other player
    that has not started; after [join] and [start] the game has the two
    players, each holds the hand dealt to them with a score of 0, the
    creator is still to play, and [canJoin] accepts nobody any more. *)
Theorem canJoin_join_start deal (user : SafeUser) g :
  canJoin (user_id user) g = true →
  ∃ creator g',
    players g = [creator]
    ∧ user_id creator ≠ user_id user
    ∧ started (state g) = false
    ∧ start deal (join user g) = Ok g'
    ∧ players g' = [creator; user]
    ∧ started (state g') = true
    ∧ cards (state g') !! user_id creator = Some deal.1
    ∧ cards (state g') !! user_id user = Some deal.2
    ∧ points (state g') !! user_id creator = Some (Num 0)
    ∧ points (state g') !! user_id user = Some (Num 0)
    ∧ playerTurn (state g') = playerTurn (state g)
    ∧ (∀ x, canJoin x (join user g) = false)
    ∧ (∀ x, canJoin x g' = false).
Proof.
  unfold canJoin. intros Hc.
  apply andb_true_iff in Hc as [Hc Hne].
  apply andb_true_iff in Hc as [Hs Hlen].
  apply negb_true_iff in Hs.
  apply bool_decide_eq_true_1 in Hlen.
  destruct (players g) as [|creator [|? ?]] eqn:Hp; simpl in *; try discriminate.
  apply bool_decide_eq_true_1 in Hne.
  destruct (start_two_players deal (join user g) creator user)
    as (g' & Hg' & Hst & Hpl & Hc1 & Hc0 & Hp0 & Hp1 & _ & Ht & _);
    [unfold join; simpl; by rewrite Hp ..|].
  exists creator, g'. repeat apply conj; try done.
  - rewrite Hpl. unfold join. simpl. by rewrite Hp.
  - by apply Hc0.
  - intros x. unfold join. simpl. rewrite Hp. simpl.
    by rewrite andb_false_r.
  - intros x. by rewrite Hst.
Qed.

(** ** The shape of what the methods return *)

Lemma withNextRoundOrWin_shape deal g g' :
  withNextRoundOrWin deal g = Ok g' →
  (∃ w, withWinnerResult g = Ok (Some g')
        ∧ g' = copy_events_state (events g ++ [RESULT w (points (state g))])
                 (with_winner (Some w) (state g)) g)
  ∨ (∃ p0 p1, playerId g 0 = Ok p0 ∧ playerId g 1 = Ok p1
              ∧ withWinnerResult g = Ok None
              ∧ g' = nextRoundOf deal g p0 p1).
Proof.
  unfold withNextRoundOrWin. intros Hn.
  destruct (withWinnerResult g) as [[gw|]|] eqn:Hw; simpl in Hn;
    try discriminate Hn.
  - injection Hn as <-. left.
    destruct (withWinnerResult_some _ _ Hw) as [w ->]. by exists w.
  - right.
    destruct (playerId g 0) as [p0|]; simpl in Hn; [|discriminate Hn].
    destruct (playerId g 1) as [p1|]; simpl in Hn; [|discriminate Hn].
    injection Hn as <-. by exists p0, p1.
Qed.

Lemma callEnvido_inv u c g g' :
  callEnvido u c g = Ok g' →
  playerTurn (state g) = Some u
  ∧ step g = Ok 1%nat
  ∧ isValidEnvidoCall c g = true
  ∧ ∃ o, otherPlayerId g u = Ok o.
Proof.
  unfold callEnvido. intros Hc.
  case_bool_decide as Ht; [discriminate Hc|].
  destruct (step g) as [s|]; simpl in Hc; [|discriminate Hc].
  case_bool_decide as Hs; [discriminate Hc|].
  destruct (isValidEnvidoCall c g); simpl in Hc; [|discriminate Hc].
  destruct (otherPlayerId g u) as [o|]; simpl in Hc; [|discriminate Hc].
  repeat split; try done.
  - f_equal. by destruct (decide (s = 1%nat)).
  - by exists o.
Qed.

Lemma goToDeck_inv deal u g g' :
  goToDeck deal u g = Ok g' →
  playerTurn (state g) = Some u
  ∧ isWaitingResponse g = false
  ∧ ∃ o, otherPlayerId g u = Ok o
         ∧ setRoundWinner deal o (copy_events (events g ++ [TO_DECK u]) g)
           = Ok g'.
Proof.
  unfold goToDeck. intros Hg.
  case_bool_decide as Ht; [discriminate Hg|].
  destruct (isWaitingResponse g); [discriminate Hg|].
  destruct (otherPlayerId g u) as [o|]; simpl in Hg; [|discriminate Hg].
  repeat split; try done. by exists o.
Qed.

(** The state that [answerEnvido] returns: the state of the game with the
    envido marked as answered, the turn given to the first caller and new
    scores, but for the winner of the match. *)
Lemma answerEnvido_inv u acc g g' :
  answerEnvido getEnvidoCardsValue u acc g = Ok g' →
  playerTurn (state g) = Some u
  ∧ step g = Ok 1%nat
  ∧ waitingResponse (envido (state g)) = true
  ∧ sameSeats g g'
  ∧ ∃ ow pp pts x,
      state g'
      = with_winner x
          {| started := started (state g);
             firstPlayer := firstPlayer (state g);
             playerTurn := firstCaller (envido (state g));
             winner := winner (state g); round := round (state g);
             cards := cards (state g);
             thrownCards := thrownCards (state g);
             trucoPoints := trucoPoints (state g); points := pts;
             envido := {|
               calls := calls (envido (state g));
               firstCaller := firstCaller (envido (state g));
               lastCaller := lastCaller (envido (state g));
               acceptedBy := Some u; accepted := Some acc;
               envidoWinner := ow; playersPoints := Some pp;
               waitingResponse := false |} |}.
Proof.
  unfold answerEnvido. intros Ha.
  case_bool_decide as Ht; [discriminate Ha|].
  destruct (step g) as [s|]; simpl in Ha; [|discriminate Ha].
  case_bool_decide as Hs; [discriminate Ha|].
  destruct (waitingResponse (envido (state g))) eqn:Hw; simpl in Ha;
    [|discriminate Ha].
  destruct (analyzeEnvido _ _ _ _) as [[ow pp]|]; simpl in Ha;
    [|discriminate Ha].
  destruct (playerId g 0) as [p0|]; simpl in Ha; [|discriminate Ha].
  destruct (playerId g 1) as [p1|]; simpl in Ha; [|discriminate Ha].
  match type of Ha with
  | context [withWinnerResult ?game] =>
      destruct (withWinnerResult game) as [[gw|]|] eqn:Hr; simpl in Ha;
        try discriminate Ha
  end.
  - injection Ha as <-. apply withWinnerResult_some in Hr as [w ->].
    repeat split; try done.
    + f_equal. by destruct (decide (s = 1%nat)).
    + by eexists ow, pp, _, (Some w).
  - injection Ha as <-. repeat split; try done.
    + f_equal. by destruct (decide (s = 1%nat)).
    + by eexists ow, pp, _, (winner (state g)).
Qed.

(** ** What every transition keeps *)

Lemma setRoundWinner_frame deal w g g' :
  setRoundWinner deal w g = Ok g' → sameSeats g g' ∧ roundStep g g'.
Proof.
  unfold setRoundWinner. intros Hs.
  apply withNextRoundOrWin_shape in Hs
    as [(x & _ & ->)|(p0 & p1 & _ & _ & _ & ->)].
  - by (split; [|left]).
  - by (split; [|right]).
Qed.

Lemma throwCard_frame deal u c g g' :
  throwCard getCardValue getRoundWinner deal u c g = Ok g' →
  sameSeats g g' ∧ roundStep g g'.
Proof.
  intros Ht.
  apply throwCard_ok_inv in Ht as (hand & moved & _ & _ & _ & _ & Hm & Hv).
  apply throwCardMoved_ok in Hm as [t ->].
  unfold withRoundWinnerValidation in Hv.
  destruct (getRoundWinner _ _) as [w|].
  - by apply setRoundWinner_frame in Hv.
  - injection Hv as <-. by (split; [|left]).
Qed.

Lemma perform_frame a g g' :
  perform getCardValue getEnvidoCardsValue getRoundWinner a g = Ok g' →
  game_id g' = game_id g ∧ name g' = name g
  ∧ players g' = players g ++ joined [a]
  ∧ roundStep g g'.
Proof.
  assert (∀ g1 : @Game Card, sameSeats g g1 ∧ roundStep g g1 →
            game_id g1 = game_id g ∧ name g1 = name g
            ∧ players g1 = players g ++ [] ∧ roundStep g g1) as Hseats.
  { intros g1 [(? & ? & ?) ?]. by rewrite app_nil_r. }
  destruct a as [user|deal|deal u c|u c|u acc|deal u]; simpl; intros Hp.
  - injection Hp as <-. repeat split. by left.
  - apply Hseats. unfold start in Hp.
    unbind Hp; injection Hp as <-; by (split; [|left]).
  - apply Hseats. by eapply throwCard_frame.
  - apply Hseats. unfold callEnvido in Hp.
    unbind Hp; injection Hp as <-; by (split; [|left]).
  - apply Hseats.
    apply answerEnvido_inv in Hp as (_ & _ & _ & Hs & ow & pp & pts & x & Hst).
    split; [exact Hs|]. left. by rewrite Hst.
  - apply Hseats.
    apply goToDeck_inv in Hp as (_ & _ & o & _ & Hs).
    by apply setRoundWinner_frame in Hs.
Qed.

Lemma run_app acts1 acts2 g :
  run getCardValue getEnvidoCardsValue getRoundWinner (acts1 ++ acts2) g
  = g1 ← run getCardValue getEnvidoCardsValue getRoundWinner acts1 g;
    run getCardValue getEnvidoCardsValue getRoundWinner acts2 g1.
Proof.
  revert g. induction acts1 as [|a acts1 IH]; intros g; [reflexivity|].
  simpl. destruct (perform _ _ _ a g) as [g1|]; simpl; [apply IH | reflexivity].
Qed.


(** X5: every game reached from [new(user)] has [trucoPoints] 1: a round
    is always worth one point. *)
Theorem trucoPoints_is_always_one acts (user : SafeUser) g :
  run getCardValue getEnvidoCardsValue getRoundWinner acts (new user) = Ok g →
  trucoPoints (state g) = 1.
Proof.
  assert (∀ acts' (g0 : @Game Card),
            trucoPoints (state g0) = 1 →
            run getCardValue getEnvidoCardsValue getRoundWinner acts' g0 = Ok g →
            trucoPoints (state g) = 1) as Hgen.
  { induction acts' as [|a acts' IH]; intros g0 H1 Hr.
    - by injection Hr as <-.
    - simpl in Hr.
      destruct (perform _ _ _ a g0) as [g1|] eqn:Hp; simpl in Hr;
        [|discriminate Hr].
      apply perform_facts in Hp as [_ Hk]. apply (IH g1); [|exact Hr].
      destruct Hk as [Hk|Hk]; congruence. }
  apply Hgen. reflexivity.
Qed.

(** X6: along any sequence of successful transitions the events of the
    first game are a prefix of the events of the last, [getNewEvents]
    gives the rest, and the new events of two sequences run one after
    the other are the new events of the first followed by those of the
    second. *)
Theorem getNewEvents_along_runs acts1 acts2 g g1 g2 :
  run getCardValue getEnvidoCardsValue getRoundWinner acts1 g = Ok g1 →
  run getCardValue getEnvidoCardsValue getRoundWinner acts2 g1 = Ok g2 →
  events g1 = events g ++ getNewEvents g g1
  ∧ run getCardValue getEnvidoCardsValue getRoundWinner (acts1 ++ acts2) g
    = Ok g2
  ∧ getNewEvents g g2 = getNewEvents g g1 ++ getNewEvents g1 g2.
Proof.
  assert (∀ acts (ga gb : @Game Card),
            run getCardValue getEnvidoCardsValue getRoundWinner acts ga = Ok gb →
            ∃ es, events gb = events ga ++ es) as Hprefix.
  { induction acts as [|a acts IH]; intros ga gb Hr.
    - injection Hr as <-. exists []. by rewrite app_nil_r.
    - simpl in Hr.
      destruct (perform _ _ _ a ga) as [gm|] eqn:Hp; simpl in Hr;
        [|discriminate Hr].
      apply perform_facts in Hp as [(es & E & _) _].
      destruct (IH _ _ Hr) as [es' E']. exists (es ++ es').
      by rewrite E', E, app_assoc. }
  intros H1 H2.
  destruct (Hprefix _ _ _ H1) as [es1 E1].
  destruct (Hprefix _ _ _ H2) as [es2 E2].
  unfold getNewEvents. rewrite E2, E1, <- !app_assoc, !drop_app_length.
  rewrite app_assoc, drop_app_length. repeat split.
  rewrite run_app, H1. exact H2.
Qed.

(** X7: [getNewEvents(oldGame)] is empty when [oldGame] has at least as
    many events as the game itself, also when they are other events; in
    particular a game has no new events with respect to itself. *)
Theorem getNewEvents_of_longer_log (old g : @Game Card) :
  (length (events g) ≤ length (events old))%nat →
  getNewEvents old g = [] ∧ getNewEvents g g = [].
Proof.
  intros Hlen. unfold getNewEvents. split.
  - by apply drop_ge.
  - apply drop_all.
Qed.

(** ** Whose turn it is *)

Lemma setNextTurnPlayer_turn g g' :
  setNextTurnPlayer getCardValue g = Ok g' →
  ∃ t, t ∈ getPlayersIds g
       ∧ g' = copy_state (with_playerTurn (Some t) (state g)) g.
Proof.
  unfold setNextTurnPlayer. intros Hs.
  destruct (playerId g 0) as [p0|] eqn:H0; simpl in Hs; [|discriminate Hs].
  destruct (playerId g 1) as [p1|] eqn:H1; simpl in Hs; [|discriminate Hs].
  apply playerId_elem in H0, H1.
  repeat case_bool_decide; injection Hs as <-; eauto.
Qed.

Lemma setRoundWinner_wellTurned deal w g g' :
  wellTurned g →
  waitingResponse (envido (state g)) = false →
  setRoundWinner deal w g = Ok g' →
  wellTurned g'.
Proof.
  intros (Ht & Hf & _) Hw Hs. unfold setRoundWinner in Hs.
  apply withNextRoundOrWin_shape in Hs
    as [(x & _ & ->)|(p0 & p1 & H0 & H1 & _ & ->)].
  - split; [exact Ht|]. split; [exact Hf|].
    unfold envidoAwaitsOpponent. simpl. by rewrite Hw.
  - apply playerId_elem in H0, H1. split; [|split].
    + eexists. split; [reflexivity|]. simpl in *. by case_bool_decide.
    + by intros f.
    + by intros ?.
Qed.

Lemma perform_wellTurned a g g' :
  wellTurned g →
  perform getCardValue getEnvidoCardsValue getRoundWinner a g = Ok g' →
  wellTurned g'.
Proof.
  intros Hwt.
  destruct a as [user|deal|deal u c|u c|u acc|deal u]; simpl; intros Hp.
  - injection Hp as <-. destruct Hwt as ((t & Ht & Hin) & Hf & Ha).
    split; [|split].
    + exists t. split; [exact Ht|].
      unfold getPlayersIds, join. simpl. rewrite map_app.
      apply elem_of_app. by left.
    + intros f Hfc. unfold getPlayersIds, join. simpl. rewrite map_app.
      apply elem_of_app. left. by apply Hf.
    + exact Ha.
  - unfold start in Hp. unbind Hp. by injection Hp as <-.
  - apply throwCard_ok_inv in Hp as (hand & moved & _ & Hw & _ & _ & Hm & Hv).
    unfold throwCardMoved in Hm.
    destruct (setNextTurnPlayer _ _) as [g1|] eqn:Hn; simpl in Hm;
      [|discriminate Hm].
    apply setNextTurnPlayer_turn in Hn as (t & Hin & ->).
    injection Hm as <-.
    assert (wellTurned
              (copy_events (events g ++ [THROW_CARD u c (Some t)])
                 (copy_state
                    (with_playerTurn (Some t)
                       (with_cards_thrown
                          (<[u:=filter (λ c0, c0 ≠ c) hand]> (cards (state g)))
                          (<[u:=thrownOf g u ++ [c]]> (thrownCards (state g)))
                          (state g)))
                    g))) as Hmoved.
    { destruct Hwt as (_ & Hf & _). split; [|split].
      - by exists t.
      - exact Hf.
      - unfold envidoAwaitsOpponent. simpl.
        unfold isWaitingResponse in Hw. by rewrite Hw. }
    unfold withRoundWinnerValidation in Hv. simpl in Hv.
    destruct (getRoundWinner _ _) as [w|].
    + by eapply setRoundWinner_wellTurned in Hv.
    + by injection Hv as <-.
  - destruct (callEnvido_inv _ _ _ _ Hp) as (Ht & Hs & Hv & o & Ho).
    rewrite (callEnvido_ok _ _ _ _ Ht Hs Hv Ho) in Hp. injection Hp as <-.
    destruct Hwt as ((t & Ht' & Hin) & Hf & _).
    rewrite Ht in Ht'. injection Ht' as <-.
    apply otherPlayerId_ok in Ho as (Hne & P & HP & <-).
    split; [|split].
    + eexists. split; [reflexivity|]. unfold getPlayersIds. simpl.
      apply list_elem_of_fmap. by exists P.
    + intros f [= <-]. unfold firstCallerOr.
      destruct (firstCaller (envido (state g))) as [f|] eqn:Hfc; [|exact Hin].
      case_bool_decide; [exact Hin | by apply Hf].
    + intros _. simpl. eexists u, (user_id P). by repeat split.
  - apply answerEnvido_inv in Hp
      as (_ & _ & Hw & (_ & _ & Hpl) & ow & pp & pts & x & Hst).
    destruct Hwt as (_ & Hf & Ha).
    destruct (Ha Hw) as (l & o & _ & _ & _ & [f Hfc]).
    unfold wellTurned, turnOfPlayer, firstCallerIsPlayer,
      envidoAwaitsOpponent, getPlayersIds.
    rewrite Hst, Hpl. simpl. split; [|split].
    + exists f. split; [exact Hfc | by apply Hf].
    + exact Hf.
    + discriminate.
  - apply goToDeck_inv in Hp as (_ & Hw & o & _ & Hs).
    eapply setRoundWinner_wellTurned in Hs; [exact Hs| |exact Hw].
    exact Hwt.
Qed.

(** X8: in every game reached from [new(user)] the player to move is one
    of the players, the first caller of the envido (if any) is a player,
    and while the envido awaits an answer the player to move is not its
    last caller. *)
Theorem turn_belongs_to_a_player acts (user : SafeUser) g :
  run getCardValue getEnvidoCardsValue getRoundWinner acts (new user) = Ok g →
  wellTurned g.
Proof.
  assert (∀ acts' (g0 : @Game Card),
            wellTurned g0 →
            run getCardValue getEnvidoCardsValue getRoundWinner acts' g0 = Ok g →
            wellTurned g) as Hgen.
  { induction acts' as [|a acts' IH]; intros g0 H0 Hr.
    - by injection Hr as <-.
    - simpl in Hr.
      destruct (perform _ _ _ a g0) as [g1|] eqn:Hp; simpl in Hr;
        [|discriminate Hr].
      apply (IH g1); [|exact Hr]. by eapply perform_wellTurned. }
  apply Hgen. split; [|split].
  - eexists. split; [reflexivity|]. unfold getPlayersIds. simpl.
    apply list_elem_of_here.
  - by intros f.
  - by intros ?.
Qed.

(** ** Going to the deck and the end of a round *)

(** What [goToDeck] returns in a game of two players: the outcome of
    [withNextRoundOrWin] on the game with TO_DECK and ROUND_RESULT
    appended and the round awarded to the opponent. *)
Lemma goToDeck_computed deal u g P0 P1 :
  players g !! 0%nat = Some P0 →
  players g !! 1%nat = Some P1 →
  user_id P0 ≠ user_id P1 →
  playerTurn (state g) = Some u →
  isWaitingResponse g = false →
  let o := if bool_decide (u = user_id P0) then user_id P1 else user_id P0 in
  let pts := <[o := num_add (toNumber (points (state g) !! o))
                            (Num (trucoPoints (state g)))]> (points (state g)) in
  let awarded :=
    copy_events_state (events g ++ [TO_DECK u; ROUND_RESULT o pts])
      (with_points pts (state g)) g in
  goToDeck deal u g
  = Ok (match winnerResultOf awarded (user_id P0) (user_id P1) with
        | Some won => won
        | None => nextRoundOf deal awarded (user_id P0) (user_id P1)
        end).
Proof.
  intros H0 H1 Hne Ht Hw o pts awarded. unfold goToDeck.
  rewrite bool_decide_eq_false_2 by (intros Hx; apply Hx; exact Ht).
  rewrite Hw, (otherPlayerId_two g P0 P1 u H0 H1 Hne). fold o. simpl.
  unfold setRoundWinner, withNextRoundOrWin. simpl. fold pts.
  rewrite <- app_assoc. simpl.
  match goal with
  | |- context [withWinnerResult ?x] => change x with awarded
  end.
  rewrite (withWinnerResult_two_players awarded P0 P1 H0 H1). simpl.
  destruct (winnerResultOf awarded _ _); [reflexivity|].
  unfold playerId. simpl. rewrite H0, H1. reflexivity.
Qed.

(** X9: in a game of two players, with scores in the range where sums
    are exact, the player to move may go to the deck
    at any step, unless the envido awaits an answer.  The opponent is
    awarded the value of the round; when no score has then reached
    MAX_POINTS the next round is dealt: the round number grows by one,
    the mano passes to the other player, who is to play, the thrown
    cards and the envido are reset, and TO_DECK, ROUND_RESULT and
    NEXT_ROUND are appended; otherwise the match has a winner, TO_DECK,
    ROUND_RESULT and RESULT are appended, and round, mano, hands and turn
    stay as they were. *)
Theorem goToDeck_ends_the_round deal u g P0 P1 :
  players g !! 0%nat = Some P0 →
  players g !! 1%nat = Some P1 →
  user_id P0 ≠ user_id P1 →
  playerTurn (state g) = Some u →
  isWaitingResponse g = false →
  safeScores g →
  let o := if bool_decide (u = user_id P0) then user_id P1 else user_id P0 in
  let pts := <[o := num_add (toNumber (points (state g) !! o))
                            (Num (trucoPoints (state g)))]> (points (state g)) in
  let first := if bool_decide (firstPlayer (state g) = user_id P0)
               then user_id P1 else user_id P0 in
  ∃ g', goToDeck deal u g = Ok g'
    ∧ points (state g') = pts
    ∧ (reachedMaxPoints pts (user_id P0) (user_id P1) = false →
       winner (state g') = None
       ∧ started (state g') = true
       ∧ round (state g') = round (state g) + 1
       ∧ firstPlayer (state g') = first
       ∧ first ≠ firstPlayer (state g)
       ∧ playerTurn (state g') = Some first
       ∧ cards (state g') !! user_id P0 = Some deal.1
       ∧ cards (state g') !! user_id P1 = Some deal.2
       ∧ thrownCards (state g') = ∅
       ∧ envido (state g') = emptyEnvido
       ∧ events g' = events g
           ++ [TO_DECK u; ROUND_RESULT o pts;
               NEXT_ROUND (cards (state g')) (round (state g) + 1) first])
    ∧ (reachedMaxPoints pts (user_id P0) (user_id P1) = true →
       ∃ w, winner (state g') = Some w
         ∧ round (state g') = round (state g)
         ∧ firstPlayer (state g') = firstPlayer (state g)
         ∧ playerTurn (state g') = Some u
         ∧ cards (state g') = cards (state g)
         ∧ thrownCards (state g') = thrownCards (state g)
         ∧ envido (state g') = envido (state g)
         ∧ events g' = events g
             ++ [TO_DECK u; ROUND_RESULT o pts; RESULT w pts]).
Proof.
  intros H0 H1 Hne Ht Hw _ o pts first.
  rewrite (goToDeck_computed deal u g P0 P1 H0 H1 Hne Ht Hw).
  fold o. fold pts. unfold winnerResultOf, reachedMaxPoints. simpl.
  destruct (_ || _) eqn:Hr; simpl.
  - eexists. split; [reflexivity|]. simpl. split; [reflexivity|].
    split; [discriminate|]. intros _. eexists.
    repeat apply conj; try reflexivity; try exact Ht.
    by rewrite <- !app_assoc.
  - eexists. split; [reflexivity|]. simpl. split; [reflexivity|].
    split; [|discriminate]. intros _. fold first.
    repeat apply conj; try reflexivity.
    + unfold first. case_bool_decide; congruence.
    + rewrite lookup_insert_ne by done. apply lookup_insert_eq.
    + apply lookup_insert_eq.
    + by rewrite <- !app_assoc.
Qed.


(** X11: once [withWinnerResult] has named a winner it names the same
    one again on the game it returned: the state is kept, and one more
    copy of the RESULT event is appended each time. *)
Theorem withWinnerResult_again g g' :
  withWinnerResult g = Ok (Some g') →
  ∃ w g'', winner (state g') = Some w
    ∧ events g' = events g ++ [RESULT w (points (state g))]
    ∧ withWinnerResult g' = Ok (Some g'')
    ∧ state g'' = state g'
    ∧ events g'' = events g ++ [RESULT w (points (state g));
                                RESULT w (points (state g))].
Proof.
  unfold withWinnerResult, playerId. intros Hw.
  destruct (players g !! 0%nat) as [P0|] eqn:H0; simpl in Hw;
    [|discriminate Hw].
  set (s0 := toNumber (points (state g) !! user_id P0)) in *.
  destruct (num_geb s0 (Num MAX_POINTS)) eqn:Hr0; simpl in Hw.
  - destruct (num_geb s0 s0) eqn:Hs; simpl in Hw.
    + injection Hw as <-. exists (user_id P0). eexists. simpl.
      rewrite H0. simpl. fold s0. rewrite Hr0. simpl. rewrite Hs. simpl.
      repeat split. simpl. by rewrite <- app_assoc.
    + destruct (players g !! 1%nat) as [P1|] eqn:H1; simpl in Hw;
        [|discriminate Hw].
      injection Hw as <-. exists (user_id P1). eexists. simpl.
      rewrite H0. simpl. fold s0. rewrite Hr0. simpl. rewrite Hs. simpl.
      rewrite H1. simpl. repeat split. simpl. by rewrite <- app_assoc.
  - destruct (players g !! 1%nat) as [P1|] eqn:H1; simpl in Hw;
      [|discriminate Hw].
    destruct (num_geb (toNumber (points (state g) !! user_id P1))
                (Num MAX_POINTS)) eqn:Hr1; simpl in Hw; [|discriminate Hw].
    destruct (num_geb s0 s0) eqn:Hs; simpl in Hw.
    + injection Hw as <-. exists (user_id P0). eexists. simpl.
      rewrite H0. simpl. fold s0. rewrite Hr0. simpl.
      rewrite H1. simpl. rewrite Hr1. simpl. rewrite Hs. simpl.
      repeat split. simpl. by rewrite <- app_assoc.
    + injection Hw as <-. exists (user_id P1). eexists. simpl.
      rewrite H0. simpl. fold s0. rewrite Hr0. simpl.
      rewrite H1. simpl. rewrite Hr1. simpl. rewrite Hs. simpl.
      repeat split. simpl. by rewrite <- app_assoc.
Qed.

(** ** Errors of answerEnvido and goToDeck *)

Lemma step_ok_players g s :
  step g = Ok s →
  ∃ P0 P1, players g !! 0%nat = Some P0 ∧ players g !! 1%nat = Some P1.
Proof.
  unfold step, playerId. intros Hs.
  destruct (players g !! 0%nat) as [P0|]; simpl in Hs; [|discriminate Hs].
  destruct (players g !! 1%nat) as [P1|]; simpl in Hs; [|discriminate Hs].
  by exists P0, P1.
Qed.

(** Past its checks, [answerEnvido] accepts a refusal. *)
Lemma answerEnvido_decline_ok u g :
  playerTurn (state g) = Some u →
  step g = Ok 1%nat →
  waitingResponse (envido (state g)) = true →
  is_ok (answerEnvido getEnvidoCardsValue u false g) = true.
Proof.
  intros Ht Hs Hw.
  destruct (step_ok_players _ _ Hs) as (P0 & P1 & H0 & H1).
  destruct (answerEnvido_analyzed getEnvidoCardsValue u false g P0 P1
              _ _ H0 H1 Ht Hs Hw eq_refl) as (g' & -> & _).
  reflexivity.
Qed.

(** An acceptance needs the hand of the first player. *)
Lemma answerEnvido_no_hand u g P0 :
  playerTurn (state g) = Some u →
  step g = Ok 1%nat →
  waitingResponse (envido (state g)) = true →
  players g !! 0%nat = Some P0 →
  cards (state g) !! user_id P0 = None →
  answerEnvido getEnvidoCardsValue u true g = Err TypeError.
Proof.
  intros Ht Hs Hw H0 Hc. unfold answerEnvido.
  rewrite bool_decide_eq_false_2 by (intros Hx; apply Hx; exact Ht).
  rewrite Hs. simpl. rewrite Hw. simpl.
  unfold analyzeEnvido, allCardsOf. simpl.
  rewrite (playerId_lookup _ _ _ H0). simpl. by rewrite Hc.
Qed.

(** X12: [answerEnvido] fails with 'Not your turn' for anybody but the
    player to move; for the player to move it fails with a TypeError in
    a game of fewer than two players, with 'Invalid step' once both
    players have thrown a card, and at step 1 with 'Not waiting
    response' when no envido awaits an answer.  Past these checks a
    refusal always succeeds, and an acceptance fails, with a TypeError,
    when the first player has no hand. *)
Theorem answerEnvido_failures u acc g :
  (playerTurn (state g) ≠ Some u →
   answerEnvido getEnvidoCardsValue u acc g = Err NotYourTurn)
  ∧ (playerTurn (state g) = Some u → (length (players g) < 2)%nat →
     answerEnvido getEnvidoCardsValue u acc g = Err TypeError)
  ∧ (∀ P0 P1,
       playerTurn (state g) = Some u →
       players g !! 0%nat = Some P0 →
       players g !! 1%nat = Some P1 →
       thrownOf g (user_id P0) ≠ [] →
       thrownOf g (user_id P1) ≠ [] →
       answerEnvido getEnvidoCardsValue u acc g = Err InvalidStep)
  ∧ (playerTurn (state g) = Some u → step g = Ok 1%nat →
     waitingResponse (envido (state g)) = false →
     answerEnvido getEnvidoCardsValue u acc g = Err NotWaitingResponse)
  ∧ (playerTurn (state g) = Some u → step g = Ok 1%nat →
     waitingResponse (envido (state g)) = true →
     is_ok (answerEnvido getEnvidoCardsValue u false g) = true)
  ∧ (∀ P0,
       playerTurn (state g) = Some u → step g = Ok 1%nat →
       waitingResponse (envido (state g)) = true →
       players g !! 0%nat = Some P0 →
       cards (state g) !! user_id P0 = None →
       answerEnvido getEnvidoCardsValue u true g = Err TypeError).
Proof.
  repeat apply conj.
  - intros Ht. unfold answerEnvido. by rewrite bool_decide_eq_true_2.
  - intros Ht Hlen. unfold answerEnvido, step, playerId.
    rewrite bool_decide_eq_false_2 by (intros Hx; apply Hx; exact Ht).
    destruct (players g) as [|Q0 [|Q1 rest]]; simpl in *; try reflexivity. lia.
  - intros P0 P1 Ht H0 H1 Hn0 Hn1. unfold answerEnvido.
    rewrite bool_decide_eq_false_2 by (intros Hx; apply Hx; exact Ht).
    rewrite (step_two_players _ _ _ H0 H1). simpl.
    destruct (thrownOf g (user_id P0)), (thrownOf g (user_id P1)); try done.
    simpl. by rewrite bool_decide_eq_true_2 by lia.
  - intros Ht Hs Hw. unfold answerEnvido.
    rewrite bool_decide_eq_false_2 by (intros Hx; apply Hx; exact Ht).
    rewrite Hs. simpl. by rewrite Hw.
  - apply answerEnvido_decline_ok.
  - intros P0. apply answerEnvido_no_hand.
Qed.

Lemma find_other_none (ps : list SafeUser) u :
  (∀ P, P ∈ ps → user_id P = u) →
  find (λ p, bool_decide (user_id p ≠ u)) ps = None.
Proof.
  induction ps as [|P ps IH]; intros Hall; [reflexivity|]. simpl.
  rewrite bool_decide_eq_false_2.
  - apply IH. intros Q HQ. apply Hall. by right.
  - intros Hne. apply Hne, Hall. by left.
Qed.

(** X13: [goToDeck] fails with 'Not your turn' for anybody but the
    player to move, with 'Waiting response' while the envido awaits an
    answer, and with a TypeError when no player has another id than the
    player's own, as in a game that nobody has joined. *)
Theorem goToDeck_failures deal u g :
  (playerTurn (state g) ≠ Some u → goToDeck deal u g = Err NotYourTurn)
  ∧ (playerTurn (state g) = Some u → isWaitingResponse g = true →
     goToDeck deal u g = Err WaitingResponse)
  ∧ (playerTurn (state g) = Some u → isWaitingResponse g = false →
     (∀ P, P ∈ players g → user_id P = u) →
     goToDeck deal u g = Err TypeError)
  ∧ (∀ user : SafeUser,
       goToDeck deal (user_id user) (new user) = Err TypeError).
Proof.
  assert (playerTurn (state g) = Some u → isWaitingResponse g = false →
          (∀ P, P ∈ players g → user_id P = u) →
          goToDeck deal u g = Err TypeError) as Halone.
  { intros Ht Hw Hall. unfold goToDeck, otherPlayerId.
    rewrite bool_decide_eq_false_2 by (intros Hx; apply Hx; exact Ht).
    rewrite Hw, (find_other_none _ _ Hall). reflexivity. }
  repeat apply conj.
  - intros Ht. unfold goToDeck. by rewrite bool_decide_eq_true_2.
  - intros Ht Hw. unfold goToDeck.
    rewrite bool_decide_eq_false_2 by (intros Hx; apply Hx; exact Ht).
    by rewrite Hw.
  - exact Halone.
  - intros user. unfold goToDeck, otherPlayerId. simpl.
    rewrite bool_decide_eq_false_2 by (intros Hx; by apply Hx).
    rewrite bool_decide_eq_false_2 by (intros Hx; by apply Hx).
    reflexivity.
Qed.

(** ** After an envido call *)

(** X14: once [envido(userId, call)] has succeeded the turn is with the
    opponent and nothing but an envido answer or escalation by the
    opponent is accepted: [throwCard] and [goToDeck] fail for everybody
    ('Waiting response' for the opponent, 'Not your turn' for the
    others), [envido] and [answerEnvido] fail with 'Not your turn' for
    everybody but the opponent, and the opponent can always decline. *)
Theorem after_envido_only_the_opponent_answers u c g g' :
  callEnvido u c g = Ok g' →
  ∃ o, o ≠ u
    ∧ playerTurn (state g') = Some o
    ∧ (∀ deal x card,
         throwCard getCardValue getRoundWinner deal x card g'
         = Err (if bool_decide (x = o) then WaitingResponse else NotYourTurn))
    ∧ (∀ deal x,
         goToDeck deal x g'
         = Err (if bool_decide (x = o) then WaitingResponse else NotYourTurn))
    ∧ (∀ x c', x ≠ o → callEnvido x c' g' = Err NotYourTurn)
    ∧ (∀ x acc, x ≠ o →
         answerEnvido getEnvidoCardsValue x acc g' = Err NotYourTurn)
    ∧ is_ok (answerEnvido getEnvidoCardsValue o false g') = true.
Proof.
  intros Hc. destruct (callEnvido_inv _ _ _ _ Hc) as (Ht & Hs & Hv & o & Ho).
  rewrite (callEnvido_ok _ _ _ _ Ht Hs Hv Ho) in Hc. injection Hc as <-.
  exists o. destruct (otherPlayerId_ok _ _ _ Ho) as [Hne _].
  repeat apply conj; try done.
  - intros deal x card. unfold throwCard, isWaitingResponse. simpl.
    destruct (decide (x = o)) as [->|Hx].
    + rewrite bool_decide_eq_false_2 by (intros Hy; by apply Hy).
      by rewrite bool_decide_eq_true_2.
    + rewrite bool_decide_eq_true_2 by congruence.
      by rewrite bool_decide_eq_false_2.
  - intros deal x. unfold goToDeck, isWaitingResponse. simpl.
    destruct (decide (x = o)) as [->|Hx].
    + rewrite bool_decide_eq_false_2 by (intros Hy; by apply Hy).
      by rewrite bool_decide_eq_true_2.
    + rewrite bool_decide_eq_true_2 by congruence.
      by rewrite bool_decide_eq_false_2.
  - intros x c' Hx. unfold callEnvido. simpl.
    by rewrite bool_decide_eq_true_2 by congruence.
  - intros x acc Hx. unfold answerEnvido. simpl.
    by rewrite bool_decide_eq_true_2 by congruence.
  - apply answerEnvido_decline_ok; [reflexivity | exact Hs | reflexivity].
Qed.

(** X15: [answerEnvido] keeps [envido.calls] and the thrown cards.  So
    the envido is not closed by its answer: the first caller, to whom
    the turn returns, may escalate again with any call that was legal
    before the answer, and the chain then awaits an answer once more. *)
Theorem answered_envido_can_be_escalated u acc g g' f o c :
  answerEnvido getEnvidoCardsValue u acc g = Ok g' →
  firstCaller (envido (state g)) = Some f →
  otherPlayerId g f = Ok o →
  isValidEnvidoCall c g = true →
  waitingResponse (envido (state g')) = false
  ∧ ∃ g'', callEnvido f c g' = Ok g''
      ∧ calls (envido (state g'')) = calls (envido (state g)) ++ [c]
      ∧ waitingResponse (envido (state g'')) = true
      ∧ points (state g'') = points (state g')
      ∧ playerTurn (state g'') = Some o.
Proof.
  intros Ha Hf Ho Hv.
  apply answerEnvido_inv in Ha
    as (_ & Hs & _ & (_ & _ & Hpl) & ow & pp & pts & x & Hst).
  split; [by rewrite Hst|].
  assert (step g' = Ok 1%nat) as Hs'.
  { rewrite <- Hs. unfold step, playerId, thrownOf. by rewrite Hst, Hpl. }
  assert (isValidEnvidoCall c g' = true) as Hv'.
  { rewrite <- Hv. unfold isValidEnvidoCall. by rewrite Hst. }
  assert (otherPlayerId g' f = Ok o) as Ho'.
  { rewrite <- Ho. unfold otherPlayerId. by rewrite Hpl. }
  assert (playerTurn (state g') = Some f) as Ht' by (by rewrite Hst).
  rewrite (callEnvido_ok _ _ _ _ Ht' Hs' Hv' Ho'). eexists.
  split; [reflexivity|]. simpl. by rewrite Hst.
Qed.

(** ** The cards and the turn after a throw *)


(** X17: the turn after a throw that does not end the round, in a game
    of two players.  When the thrower opens the trick (both had thrown
    as many cards) the opponent plays next.  When the thrower closes the
    trick (the opponent had thrown one card more) the player of the
    higher card plays next, and on equal cards the opponent does. *)
Theorem turn_after_throw deal u c g g' P0 P1 :
  players g !! 0%nat = Some P0 →
  players g !! 1%nat = Some P1 →
  user_id P0 ≠ user_id P1 →
  u = user_id P0 ∨ u = user_id P1 →
  throwCard getCardValue getRoundWinner deal u c g = Ok g' →
  getRoundWinner (getPlayersIds g)
    (<[u := thrownOf g u ++ [c]]> (thrownCards (state g))) = None →
  let o := if bool_decide (u = user_id P0) then user_id P1 else user_id P0 in
  let mine := getCardValue (Some c) in
  let theirs := getCardValue (last (thrownOf g o)) in
  (length (thrownOf g u) = length (thrownOf g o) →
   playerTurn (state g') = Some o)
  ∧ (length (thrownOf g o) = S (length (thrownOf g u)) →
     playerTurn (state g')
     = Some (if bool_decide (mine = theirs) then o
             else if bool_decide (theirs < mine) then u else o)).
Proof.
  intros H0 H1 Hne Hu Ht Hnone o mine theirs.
  apply throwCard_ok_inv in Ht
    as (hand & moved & Hturn & _ & _ & _ & Hm & Hv).
  unfold withRoundWinnerValidation in Hv.
  pose proof (throwCardMoved_ok _ _ _ _ _ _ Hm) as [t Ht].
  rewrite Ht in Hv. unfold getPlayersIds in Hv, Hnone. simpl in Hv.
  rewrite Hnone in Hv. injection Hv as <-. rewrite <- Ht. clear Ht t Hnone.
  unfold throwCardMoved, setNextTurnPlayer, playerId in Hm. simpl in Hm.
  rewrite H0, H1 in Hm. simpl in Hm. unfold thrownOf in Hm. simpl in Hm.
  unfold mine, theirs, o, thrownOf in *. clear mine theirs o.
  destruct Hu as [->| ->].
  - rewrite bool_decide_eq_true_2 by done.
    rewrite lookup_insert_eq, lookup_insert_ne in Hm by done. simpl in Hm.
    rewrite length_app, last_snoc, Hturn in Hm. simpl in Hm.
    split; intros Hlen.
    + rewrite bool_decide_eq_false_2 in Hm by lia.
      rewrite bool_decide_eq_false_2 in Hm by lia.
      by injection Hm as <-.
    + rewrite bool_decide_eq_true_2 in Hm by lia.
      rewrite (bool_decide_eq_true_2 (Some (user_id P0) = Some (user_id P0)))
        in Hm by done.
      injection Hm as <-. simpl. by repeat case_bool_decide.
  - rewrite bool_decide_eq_false_2 by done.
    rewrite lookup_insert_eq, lookup_insert_ne in Hm by done. simpl in Hm.
    rewrite length_app, last_snoc, Hturn in Hm. simpl in Hm.
    split; intros Hlen.
    + rewrite bool_decide_eq_false_2 in Hm by lia.
      rewrite bool_decide_eq_true_2 in Hm by lia.
      by injection Hm as <-.
    + rewrite bool_decide_eq_true_2 in Hm by lia.
      rewrite (bool_decide_eq_false_2 (Some (user_id P1) = Some (user_id P0)))
        in Hm by congruence.
      injection Hm as <-. simpl.
      repeat case_bool_decide; try done; lia.
Qed.

(** ** The scores stay numbers *)

Lemma numericScores_insert g (P0 P1 : SafeUser) a b w n :
  user_id P0 ≠ user_id P1 →
  points (state g) !! user_id P0 = Some (Num a) →
  points (state g) !! user_id P1 = Some (Num b) →
  w = user_id P0 ∨ w = user_id P1 →
  let pts := <[w := num_add (toNumber (points (state g) !! w)) (Num n)]>
               (points (state g)) in
  ∃ a' b', pts !! user_id P0 = Some (Num a')
           ∧ pts !! user_id P1 = Some (Num b').
Proof.
  intros Hne Ha Hb [->| ->] pts; unfold pts.
  - rewrite Ha. simpl. exists (a + n), b.
    rewrite lookup_insert_eq, lookup_insert_ne by done. by split.
  - rewrite Hb. simpl. exists a, (b + n).
    rewrite lookup_insert_eq, lookup_insert_ne by done. by split.
Qed.

Lemma elem_of_pair (x a b : UserId) : x ∈ [a; b] → x = a ∨ x = b.
Proof.
  intros Hx. apply elem_of_cons in Hx as [->|Hx]; [by left|].
  apply list_elem_of_singleton in Hx as ->. by right.
Qed.

Lemma setRoundWinner_numericScores deal w g g' :
  numericScores g →
  w ∈ getPlayersIds g →
  setRoundWinner deal w g = Ok g' →
  numericScores g'.
Proof.
  intros (P0 & P1 & a & b & Hpl & Hne & Hfp & Ha & Hb) Hw Hs.
  unfold getPlayersIds in Hw. rewrite Hpl in Hw. simpl in Hw.
  apply elem_of_pair in Hw.
  destruct (numericScores_insert g P0 P1 a b w (trucoPoints (state g))
              Hne Ha Hb Hw) as (a' & b' & Ha' & Hb').
  unfold setRoundWinner in Hs.
  apply withNextRoundOrWin_shape in Hs
    as [(x & _ & ->)|(p0 & p1 & H0 & H1 & _ & ->)].
  - exists P0, P1, a', b'. by repeat split.
  - unfold playerId in H0, H1. simpl in H0, H1. rewrite Hpl in H0, H1.
    simpl in H0, H1. injection H0 as <-. injection H1 as <-.
    exists P0, P1, a', b'. repeat split; try done.
    simpl. case_bool_decide; [by right | by left].
Qed.

Lemma setRoundWinner_lastCaller deal w g g' :
  lastCallerIsPlayer g →
  setRoundWinner deal w g = Ok g' →
  lastCallerIsPlayer g'.
Proof.
  intros Hl Hs. unfold setRoundWinner in Hs.
  apply withNextRoundOrWin_shape in Hs
    as [(x & _ & ->)|(p0 & p1 & _ & _ & _ & ->)].
  - exact Hl.
  - by intros l.
Qed.

Lemma answerEnvido_numericScores u acc g g' :
  seated g →
  answerEnvido getEnvidoCardsValue u acc g = Ok g' →
  numericScores g'.
Proof.
  intros (Hwt & Hlc & (P0 & P1 & a & b & Hpl & Hne & Hfp & Ha & Hb)) Hans.
  destruct (answerEnvido_inv _ _ _ _ Hans)
    as (Ht & Hs & Hw & (_ & _ & Hpl') & ow & pp & pts & x & Hst).
  assert (players g !! 0%nat = Some P0) as H0 by (by rewrite Hpl).
  assert (players g !! 1%nat = Some P1) as H1 by (by rewrite Hpl).
  assert (firstPlayer (state g') = firstPlayer (state g)) as Hfp'
    by (by rewrite Hst).
  assert (∀ w loser award n,
            envidoSettled g g' u acc w loser award →
            award = Num n →
            (w = user_id P0 ∧ loser = user_id P1)
            ∨ (w = user_id P1 ∧ loser = user_id P0) →
            numericScores g') as Hsettled.
  { intros w loser award n (_ & _ & Hpw & Hpl0 & _) -> Hwl.
    destruct Hwl as [[-> ->]|[-> ->]]; rewrite Ha, Hb in *; simpl in *.
    - exists P0, P1, (a + n), (b + 0).
      repeat split; try done; by rewrite ?Hpl', ?Hfp'.
    - exists P0, P1, (a + 0), (b + n).
      repeat split; try done; by rewrite ?Hpl', ?Hfp'. }
  destruct Hwt as ((t & Ht' & Hin) & _ & Haw).
  rewrite Ht in Ht'. injection Ht' as <-.
  unfold getPlayersIds in Hin. rewrite Hpl in Hin. simpl in Hin.
  apply elem_of_pair in Hin.
  destruct acc.
  - destruct (cards (state g) !! user_id P0) as [h0|] eqn:Hh0;
      [destruct (cards (state g) !! user_id P1) as [h1|] eqn:Hh1|].
    + destruct (answerEnvido_accepted getEnvidoCardsValue u g P0 P1 h0 h1
                  H0 H1 Hne Ht Hs Hw Hh0 Hh1 Hfp)
        as (g0 & award & Hg0 & Haward & Hset).
      rewrite Hans in Hg0. injection Hg0 as <-.
      match type of Hset with
      | envidoSettled _ _ _ _ ?w _ _ => set (ww := w) in *
      end.
      assert (ww = user_id P0 ∨ ww = user_id P1) as Hww.
      { unfold ww. repeat case_bool_decide; auto. }
      assert (ww = user_id P0
              ∧ (if bool_decide (ww = user_id P0) then user_id P1
                 else user_id P0) = user_id P1
              ∨ ww = user_id P1
                ∧ (if bool_decide (ww = user_id P0) then user_id P1
                   else user_id P0) = user_id P0) as Hwl.
      { destruct Hww as [E|E]; rewrite E; [left|right]; (split; [done|]).
        - by rewrite bool_decide_eq_true_2.
        - by rewrite bool_decide_eq_false_2. }
      match type of Haward with
      | getEnvidoPoints ?w g = _ =>
          pose proof (otherPlayerId_two g P0 P1 w H0 H1 Hne) as Ho
      end.
      rewrite (getEnvidoPoints_sum _ _ _ Ho) in Haward.
      assert (∃ n, award = Num n) as [n Hn].
      { injection Haward as <-.
        destruct Hwl as [[_ Hl]|[_ Hl]]; rewrite Hl, ?Ha, ?Hb; simpl;
          rewrite num_sum_values; eauto. }
      by eapply Hsettled.
    + exfalso. unfold answerEnvido in Hans.
      rewrite bool_decide_eq_false_2 in Hans
        by (intros Hx; apply Hx; exact Ht).
      rewrite Hs in Hans. simpl in Hans. rewrite Hw in Hans. simpl in Hans.
      unfold analyzeEnvido, allCardsOf in Hans. simpl in Hans.
      rewrite (playerId_lookup _ _ _ H0), (playerId_lookup _ _ _ H1) in Hans.
      simpl in Hans. rewrite Hh0, Hh1 in Hans. discriminate Hans.
    + exfalso.
      rewrite (answerEnvido_no_hand u g P0 Ht Hs Hw H0 Hh0) in Hans.
      discriminate Hans.
  - destruct (Haw Hw) as (l & o & Hl & Ho & Hol & _).
    rewrite Ht in Ho. injection Ho as <-.
    pose proof (Hlc l Hl) as Hlin.
    unfold getPlayersIds in Hlin. rewrite Hpl in Hlin. simpl in Hlin.
    apply elem_of_pair in Hlin.
    assert ((l = user_id P0 ∧ u = user_id P1)
            ∨ (l = user_id P1 ∧ u = user_id P0)) as Hlu.
    { destruct Hlin as [->| ->], Hin as [->| ->]; try done; auto. }
    destruct (answerEnvido_declined getEnvidoCardsValue u g P0 P1 l
                H0 H1 Hne Ht Hs Hw Hl Hlu) as (g0 & Hg0 & Hset).
    rewrite Hans in Hg0. injection Hg0 as <-.
    by eapply Hsettled.
Qed.

Lemma perform_seated a g g' :
  namesAPlayer getRoundWinner →
  joined [a] = [] →
  seated g →
  perform getCardValue getEnvidoCardsValue getRoundWinner a g = Ok g' →
  seated g'.
Proof.
  intros Hrw Hj Hseated Hp.
  pose proof Hseated as (Hwt & Hlc & Hns).
  split; [by eapply perform_wellTurned|].
  destruct a as [user|deal|deal u c|u c|u acc|deal u]; simpl in Hp;
    [discriminate Hj| | | | |].
  - destruct Hns as (P0 & P1 & a & b & Hpl & Hne & Hfp & _).
    destruct (start_two_players deal g P0 P1)
      as (g0 & Hg0 & _ & Hpl' & _ & _ & Hp0 & Hp1 & _);
      [by rewrite Hpl ..|].
    rewrite Hp in Hg0. injection Hg0 as <-.
    unfold start in Hp. unbind Hp. injection Hp as Hp.
    split.
    + rewrite <- Hp. exact Hlc.
    + exists P0, P1, 0, 0. repeat split; try done; try congruence.
      by rewrite <- Hp.
  - apply throwCard_ok_inv in Hp as (hand & moved & _ & _ & _ & _ & Hm & Hv).
    apply throwCardMoved_ok in Hm as [t ->].
    unfold withRoundWinnerValidation in Hv.
    destruct (getRoundWinner _ _) as [w|] eqn:Hw.
    + apply Hrw in Hw. split.
      * by eapply setRoundWinner_lastCaller in Hv.
      * by eapply setRoundWinner_numericScores in Hv.
    + by injection Hv as <-.
  - destruct (callEnvido_inv _ _ _ _ Hp) as (Ht & Hs & Hv & o & Ho).
    rewrite (callEnvido_ok _ _ _ _ Ht Hs Hv Ho) in Hp. injection Hp as <-.
    split; [|exact Hns].
    intros l [= <-]. destruct Hwt as ((t & Ht' & Hin) & _).
    rewrite Ht in Ht'. by injection Ht' as <-.
  - split; [|by eapply answerEnvido_numericScores].
    apply answerEnvido_inv in Hp
      as (_ & _ & _ & (_ & _ & Hpl) & ow & pp & pts & x & Hst).
    unfold lastCallerIsPlayer, getPlayersIds. rewrite Hst, Hpl. exact Hlc.
  - apply goToDeck_inv in Hp as (_ & _ & o & Ho & Hs).
    apply otherPlayerId_ok in Ho as (_ & P & HP & <-). split.
    + by eapply setRoundWinner_lastCaller in Hs.
    + eapply setRoundWinner_numericScores in Hs; [exact Hs|exact Hns|].
      unfold getPlayersIds. simpl. apply list_elem_of_fmap. by exists P.
Qed.

(** X18: when [getRoundWinner] names one of the ids it is given, the
    scores of a match between two users with different ids stay numbers:
    in every game reached from [new(creator)] by the join of the second
    user, [start] and any further transitions but joins, the game has
    these two players, the mano is one of them, and both scores are
    integers (no NaN). *)
Theorem scores_stay_numbers (creator user : SafeUser) deal acts g :
  namesAPlayer getRoundWinner →
  user_id creator ≠ user_id user →
  joined acts = [] →
  run getCardValue getEnvidoCardsValue getRoundWinner
    (Join user :: Start deal :: acts) (new creator) = Ok g →
  players g = [creator; user]
  ∧ (firstPlayer (state g) = user_id creator
     ∨ firstPlayer (state g) = user_id user)
  ∧ ∃ a b, points (state g) !! user_id creator = Some (Num a)
           ∧ points (state g) !! user_id user = Some (Num b).
Proof.
  intros Hrw Hne Hj Hr.
  assert (∀ acts' (g0 : @Game Card),
            joined acts' = [] → seated g0 →
            run getCardValue getEnvidoCardsValue getRoundWinner acts' g0 = Ok g →
            seated g ∧ players g = players g0) as Hgen.
  { induction acts' as [|a acts' IH]; intros g0 Hj0 H0 Hr0.
    - by injection Hr0 as <-.
    - simpl in Hr0.
      destruct (perform _ _ _ a g0) as [g1|] eqn:Hp; simpl in Hr0;
        [|discriminate Hr0].
      assert (joined [a] = [] ∧ joined acts' = []) as [Hja Hjr].
      { destruct a; simpl in *; try done. }
      destruct (IH g1 Hjr) as [Hs Hpl]; [by eapply perform_seated|exact Hr0|].
      split; [exact Hs|]. rewrite Hpl.
      apply perform_frame in Hp as (_ & _ & -> & _).
      by rewrite Hja, app_nil_r. }
  assert ((g0 ← start deal (join user (new creator));
           run getCardValue getEnvidoCardsValue getRoundWinner acts g0)
          = Ok g) as Hr' by exact Hr.
  clear Hr. rename Hr' into Hr.
  destruct (start_two_players deal (join user (new creator))
              creator user eq_refl eq_refl)
    as (g0 & Hg0 & _ & Hpl & _ & _ & Hp0 & Hp1 & _ & Ht & _ & _ & Henv & _).
  rewrite Hg0 in Hr. simpl in Hr.
  assert (firstPlayer (state g0) = user_id creator) as Hfp.
  { unfold start in Hg0. simpl in Hg0. by injection Hg0 as <-. }
  destruct (Hgen acts g0 Hj) as [(_ & _ & Hns) Hplg]; [|exact Hr|].
  { split; [|split].
    - split; [|split].
      + exists (user_id creator). split; [by rewrite Ht|].
        unfold getPlayersIds. rewrite Hpl. simpl. by left.
      + intros f. by rewrite Henv.
      + intros Hw. by rewrite Henv in Hw.
    - intros l. by rewrite Henv.
    - exists creator, user, 0, 0. repeat split; try done. by left. }
  destruct Hns as (P0 & P1 & a & b & Hpl' & _ & Hfp' & Ha & Hb).
  rewrite Hplg, Hpl in Hpl'. simpl in Hpl'. injection Hpl' as <- <-.
  rewrite Hplg, Hpl. simpl. repeat split; [exact Hfp'|]. by exists a, b.
Qed.

End Further.


(** * Properties of the socket manager *)

Section SocketProperties.

Context {Socket Data : Type}.

Implicit Types (sockets : gmap UserId Socket) (s : Socket) (d : Data).

(** X19: after a user has registered a connection, what is emitted to
    that user goes to the socket registered last, once; what is emitted
    to any other user is as before; a user with no registered
    connection receives nothing. *)
Theorem emitToUser_after_registerConnection sockets u s0 s u' e d :
  emitToUser (registerConnection u s (registerConnection u s0 sockets)) u e d
  = [{| target := s; eventName := e; payload := d |}]
  ∧ (u' ≠ u →
     emitToUser (registerConnection u s sockets) u' e d
     = emitToUser sockets u' e d)
  ∧ (sockets !! u' = None → emitToUser sockets u' e d = []).
Proof.
  unfold emitToUser, registerConnection. repeat split.
  - by rewrite lookup_insert_eq.
  - intros Hne. by rewrite lookup_insert_ne.
  - by intros ->.
Qed.

(** X20: [emitToUsers] sends the event once for each listed user id
    that has a registered connection, in the order of the list and with
    repetitions, to the socket registered for it; the ids without a
    connection are skipped, so that nothing is sent when none of the
    listed users is connected. *)
Theorem emitToUsers_reaches_the_connected sockets (ids : list UserId) e d :
  emitToUsers sockets ids e d
  = (λ s, {| target := s; eventName := e; payload := d |})
      <$> omap (λ u, sockets !! u) ids
  ∧ (length (emitToUsers sockets ids e d) ≤ length ids)%nat
  ∧ ((∀ u, u ∈ ids → sockets !! u = None) → emitToUsers sockets ids e d = []).
Proof.
  assert (emitToUsers sockets ids e d
          = (λ s, {| target := s; eventName := e; payload := d |})
              <$> omap (λ u, sockets !! u) ids) as Hmap.
  { unfold emitToUsers, emitToUser.
    induction ids as [|u ids IH]; [reflexivity|]. simpl. rewrite IH.
    by destruct (sockets !! u). }
  split; [exact Hmap|]. split.
  - rewrite Hmap, length_fmap. clear Hmap.
    induction ids as [|u ids IH]; simpl; [lia|].
    change (list_omap UserId Socket (λ u0, sockets !! u0) ids)
      with (omap (λ u0, sockets !! u0) ids).
    destruct (sockets !! u); simpl; lia.
  - clear Hmap. intros Hnone. unfold emitToUsers.
    induction ids as [|u ids IH]; [reflexivity|]. simpl.
    unfold emitToUser at 1. rewrite (Hnone u) by (by left). simpl.
    apply IH. intros u' Hu'. apply Hnone. by right.
Qed.

End SocketProperties.


(** * The further properties on concrete games *)

Lemma tricks_won_by a b ca cb x :
  Cards.WonBy x ∈ Cards.tricks a b ca cb → x = a ∨ x = b.
Proof.
  revert cb. induction ca as [|c ca IH]; intros cb Hin.
  - by apply not_elem_of_nil in Hin.
  - destruct cb as [|c' cb]; [by apply not_elem_of_nil in Hin|].
    simpl in Hin. apply elem_of_cons in Hin as [Hx|Hin]; [|by eapply IH].
    repeat case_bool_decide; try discriminate Hx; injection Hx as ->; auto.
Qed.

(** The round winner written after the specification names one of the
    ids it is given. *)
Lemma getRoundWinner_names_a_player : namesAPlayer Cards.getRoundWinner.
Proof.
  intros ids thrown w. unfold Cards.getRoundWinner.
  destruct ids as [|a [|b rest]]; try discriminate.
  pose proof (tricks_won_by a b (default [] (thrown !! a))
                (default [] (thrown !! b))) as Hin.
  assert (∀ x, x = a ∨ x = b → x ∈ a :: b :: rest) as Hmem.
  { intros x [->| ->]; [by left | right; by left]. }
  destruct (Cards.tricks a b _ _) as [|[x|] [|[y|] [|[z|] l]]];
    intros Hw; try discriminate Hw;
    repeat (case_bool_decide; try discriminate Hw);
    injection Hw as <-;
    first [ by left | apply Hmem, Hin; set_solver ].
Qed.


(** X2 at beto joining ana's new game. *)
Lemma canJoin_join_start_witness :
  canJoin 2 Play.fresh = true
  ∧ ∃ g', start Scenario.hands1 Play.lobby = Ok g'
          ∧ players g' = [Scenario.ana; Scenario.beto]
          ∧ cards (state g') !! 1 = Some Scenario.hands1.1
          ∧ cards (state g') !! 2 = Some Scenario.hands1.2
          ∧ (∀ x, canJoin x g' = false).
Proof.
  split; [reflexivity|].
  destruct (canJoin_join_start Scenario.hands1 Scenario.beto
              Play.fresh eq_refl)
    as (creator & g' & Hpl & _ & _ & Hs & Hpl' & _ & Hc0 & Hc1 & _ & _ & _ & _
        & Hc).
  injection Hpl as <-. exists g'. by repeat split.
Defined.

(** X3 at ana's new game, alone and with beto. *)
Lemma start_needs_two_players_witness :
  start Scenario.hands1 Play.fresh = Err TypeError
  ∧ ∃ g', start Scenario.hands1 Play.lobby = Ok g'
          ∧ started (state g') = true
          ∧ points (state g') !! 1 = Some (Num 0)
          ∧ points (state g') !! 2 = Some (Num 0).
Proof.
  split.
  - apply (start_needs_two_players Scenario.hands1 Play.fresh).
    simpl. lia.
  - destruct (proj2 (start_needs_two_players Scenario.hands1 Play.lobby)
                Scenario.ana Scenario.beto eq_refl eq_refl)
      as (g' & Hs & Hst & _ & _ & _ & Hp0 & Hp1 & _).
    exists g'. by repeat split.
Defined.


(** X5 at the nine rounds ended at the deck. *)
Lemma trucoPoints_is_always_one_witness :
  trucoPoints (state Scenario.afterNine) = 1.
Proof.
  apply (trucoPoints_is_always_one Cards.getCardValue
           Cards.getEnvidoCardsValue Cards.getRoundWinner
           Scenario.nineFolds Scenario.ana Scenario.afterNine).
  vm_compute. reflexivity.
Defined.

(** X6 at the nine rounds followed by a tenth. *)
Lemma getNewEvents_along_runs_witness :
  events Scenario.afterNine
  = events Play.fresh ++ getNewEvents Play.fresh Scenario.afterNine
  ∧ Scenario.run' (Scenario.nineFolds ++ [GoToDeck Scenario.hands2 1])
      Play.fresh = Ok Play.afterTen
  ∧ getNewEvents Play.fresh Play.afterTen
    = getNewEvents Play.fresh Scenario.afterNine
      ++ getNewEvents Scenario.afterNine Play.afterTen.
Proof.
  apply (getNewEvents_along_runs Cards.getCardValue
           Cards.getEnvidoCardsValue Cards.getRoundWinner
           Scenario.nineFolds [GoToDeck Scenario.hands2 1]
           Play.fresh Scenario.afterNine Play.afterTen);
    vm_compute; reflexivity.
Defined.

(** X7 at the game after nine rounds, asked for its news since the tenth. *)
Lemma getNewEvents_of_longer_log_witness :
  getNewEvents Play.afterTen Scenario.afterNine = []
  ∧ getNewEvents Scenario.afterNine Scenario.afterNine = [].
Proof.
  apply (getNewEvents_of_longer_log Play.afterTen Scenario.afterNine).
  vm_compute. lia.
Defined.

(** X8 at the nine rounds ended at the deck. *)
Lemma turn_belongs_to_a_player_witness : wellTurned Scenario.afterNine.
Proof.
  apply (turn_belongs_to_a_player Cards.getCardValue
           Cards.getEnvidoCardsValue Cards.getRoundWinner
           Scenario.nineFolds Scenario.ana Scenario.afterNine).
  vm_compute. reflexivity.
Defined.

(** X9 at ana going to the deck in the first round. *)
Lemma goToDeck_ends_the_round_witness :
  ∃ g', goToDeck Scenario.hands2 1 Scenario.opening = Ok g'
        ∧ points (state g') !! 2 = Some (Num 1)
        ∧ round (state g') = 2
        ∧ firstPlayer (state g') = 2
        ∧ playerTurn (state g') = Some 2
        ∧ thrownCards (state g') = ∅.
Proof.
  destruct (goToDeck_ends_the_round Scenario.hands2 1 Scenario.opening
              Scenario.ana Scenario.beto)
    as (g' & Hg & Hpts & Hnext & _); try reflexivity; try discriminate.
  { apply table_safeScores; vm_compute; discriminate. }
  destruct (Hnext eq_refl) as (_ & _ & Hrd & Hfp & _ & Ht & _ & _ & Hth & _).
  exists g'. repeat split; try done. by rewrite Hpts.
Defined.


(** X11 at beto with five points. *)
Lemma withWinnerResult_again_witness :
  ∃ g' w g'', withWinnerResult Scenario.lateLeader = Ok (Some g')
    ∧ winner (state g') = Some w
    ∧ withWinnerResult g' = Ok (Some g'')
    ∧ state g'' = state g'
    ∧ events g'' = events Scenario.lateLeader
        ++ [RESULT w (points (state Scenario.lateLeader));
            RESULT w (points (state Scenario.lateLeader))].
Proof.
  destruct (withWinnerResult Scenario.lateLeader) as [[g'|]|] eqn:Hw;
    try (vm_compute in Hw; discriminate Hw).
  destruct (withWinnerResult_again Scenario.lateLeader g' Hw)
    as (w & g'' & Hwin & _ & Hw' & Hst & Hev).
  exists g', w, g''. by repeat split.
Defined.

(** X12 at the first round: no envido to answer, beto out of turn; and
    at ana's pending ENVIDO, which beto may decline. *)
Lemma answerEnvido_failures_witness :
  answerEnvido Cards.getEnvidoCardsValue 2 true Scenario.opening
    = Err NotYourTurn
  ∧ answerEnvido Cards.getEnvidoCardsValue 1 true Scenario.opening
    = Err NotWaitingResponse
  ∧ answerEnvido Cards.getEnvidoCardsValue 1 true Play.fresh
    = Err TypeError
  ∧ answerEnvido Cards.getEnvidoCardsValue 1 true Play.firstTrickDone
    = Err InvalidStep
  ∧ is_ok (answerEnvido Cards.getEnvidoCardsValue 2 false
             Scenario.envidoPending) = true.
Proof.
  repeat apply conj.
  - apply (answerEnvido_failures Cards.getEnvidoCardsValue 2 true
             Scenario.opening). discriminate.
  - apply (answerEnvido_failures Cards.getEnvidoCardsValue 1 true
             Scenario.opening); reflexivity.
  - apply (answerEnvido_failures Cards.getEnvidoCardsValue 1 true
             Play.fresh); [reflexivity | simpl; lia].
  - apply (proj1 (proj2 (proj2
             (answerEnvido_failures Cards.getEnvidoCardsValue 1 true
                Play.firstTrickDone))) Scenario.ana Scenario.beto);
      try reflexivity; discriminate.
  - apply (answerEnvido_failures Cards.getEnvidoCardsValue 2 false
             Scenario.envidoPending); reflexivity.
Defined.

(** X13 at the first round and at a game nobody has joined. *)
Lemma goToDeck_failures_witness :
  goToDeck Scenario.hands2 2 Scenario.opening = Err NotYourTurn
  ∧ goToDeck Scenario.hands2 2 Scenario.envidoPending = Err WaitingResponse
  ∧ goToDeck Scenario.hands2 1 Play.fresh = Err TypeError.
Proof.
  repeat apply conj.
  - apply (goToDeck_failures Scenario.hands2 2 Scenario.opening). discriminate.
  - apply (goToDeck_failures Scenario.hands2 2 Scenario.envidoPending);
      reflexivity.
  - apply (proj1 (proj2 (proj2
             (goToDeck_failures Scenario.hands2 1 Play.fresh))));
      try reflexivity.
    intros P HP. apply list_elem_of_singleton in HP. by subst P.
Defined.

(** X14 at ana's ENVIDO in the first round. *)
Lemma after_envido_only_the_opponent_answers_witness :
  ∃ o, o ≠ 1
    ∧ playerTurn (state Play.envidoOpened) = Some o
    ∧ (∀ deal x card,
         throwCard Cards.getCardValue Cards.getRoundWinner deal x card
           Play.envidoOpened
         = Err (if bool_decide (x = o) then WaitingResponse else NotYourTurn))
    ∧ is_ok (answerEnvido Cards.getEnvidoCardsValue o false
               Play.envidoOpened) = true.
Proof.
  destruct (after_envido_only_the_opponent_answers Cards.getCardValue
              Cards.getEnvidoCardsValue Cards.getRoundWinner
              1 ENVIDO Scenario.opening Play.envidoOpened)
    as (o & Hne & Ht & Hthrow & _ & _ & _ & Hdecline);
    [vm_compute; reflexivity|].
  exists o. by repeat split.
Defined.

(** X15 at beto accepting ana's ENVIDO: ana may go on with REAL_ENVIDO. *)
Lemma answered_envido_can_be_escalated_witness :
  waitingResponse (envido (state Play.envidoAccepted)) = false
  ∧ ∃ g'', callEnvido 1 REAL_ENVIDO Play.envidoAccepted = Ok g''
      ∧ calls (envido (state g'')) = [ENVIDO; REAL_ENVIDO]
      ∧ waitingResponse (envido (state g'')) = true
      ∧ points (state g'') = points (state Play.envidoAccepted)
      ∧ playerTurn (state g'') = Some 2.
Proof.
  apply (answered_envido_can_be_escalated Cards.getEnvidoCardsValue
           2 true Scenario.envidoPending Play.envidoAccepted 1 2 REAL_ENVIDO);
    vm_compute; reflexivity.
Defined.


(** X17 at the first trick: ana opens it with the 1 of swords, beto
    closes it with the 4 of cups. *)
Lemma turn_after_throw_witness :
  playerTurn (state Scenario.firstThrown) = Some 2
  ∧ playerTurn (state Play.firstTrickDone) = Some 1.
Proof.
  split.
  - apply (proj1 (turn_after_throw Cards.getCardValue Cards.getRoundWinner
                    Scenario.hands2 1 (Scenario.card Cards.Espada 1)
                    Scenario.opening Scenario.firstThrown
                    Scenario.ana Scenario.beto eq_refl eq_refl
                    ltac:(discriminate) (or_introl eq_refl)
                    ltac:(vm_compute; reflexivity)
                    ltac:(vm_compute; reflexivity))).
    reflexivity.
  - apply (proj2 (turn_after_throw Cards.getCardValue Cards.getRoundWinner
                    Scenario.hands2 2 (Scenario.card Cards.Copa 4)
                    Scenario.firstThrown Play.firstTrickDone
                    Scenario.ana Scenario.beto eq_refl eq_refl
                    ltac:(discriminate) (or_intror eq_refl)
                    ltac:(vm_compute; reflexivity)
                    ltac:(vm_compute; reflexivity))).
    reflexivity.
Defined.

(** X18 at the nine rounds ended at the deck. *)
Lemma scores_stay_numbers_witness :
  players Scenario.afterNine = [Scenario.ana; Scenario.beto]
  ∧ (firstPlayer (state Scenario.afterNine) = 1
     ∨ firstPlayer (state Scenario.afterNine) = 2)
  ∧ ∃ a b, points (state Scenario.afterNine) !! 1 = Some (Num a)
           ∧ points (state Scenario.afterNine) !! 2 = Some (Num b).
Proof.
  apply (scores_stay_numbers Cards.getCardValue Cards.getEnvidoCardsValue
           Cards.getRoundWinner Scenario.ana Scenario.beto Scenario.hands1
           [GoToDeck Scenario.hands2 1; GoToDeck Scenario.hands1 2;
            GoToDeck Scenario.hands2 1; GoToDeck Scenario.hands1 2;
            GoToDeck Scenario.hands2 1; GoToDeck Scenario.hands1 2;
            GoToDeck Scenario.hands2 1; GoToDeck Scenario.hands1 2;
            GoToDeck Scenario.hands2 1]
           Scenario.afterNine).
  - exact getRoundWinner_names_a_player.
  - discriminate.
  - reflexivity.
  - vm_compute. reflexivity.
Defined.

(** X19 at ana and beto connected, ana connecting again on socket 11. *)
Lemma emitToUser_after_registerConnection_witness :
  emitToUser (registerConnection 1 11%nat Play.connections) 2
    "new-events" tt
  = emitToUser Play.connections 2 "new-events" tt
  ∧ emitToUser Play.connections 3 "new-events" tt = [].
Proof.
  split.
  - apply (emitToUser_after_registerConnection Play.connections 1 10%nat
             11%nat 2 "new-events" tt).
    discriminate.
  - apply (emitToUser_after_registerConnection Play.connections 1 10%nat
             11%nat 3 "new-events" tt).
    reflexivity.
Defined.

(** X20 at users 3 and 4, who are not connected. *)
Lemma emitToUsers_reaches_the_connected_witness :
  emitToUsers Play.connections [3; 4] "new-events" tt = [].
Proof.
  apply (emitToUsers_reaches_the_connected Play.connections [3; 4]
           "new-events" tt).
  intros u Hu. apply elem_of_pair in Hu as [->| ->]; reflexivity.
Defined.
